(** * raytracpper: the camera of a recursive path tracer (camera.h)

    A shallow embedding of [class camera]: geometry setup ([initialize]),
    the ray sampler ([get_ray]), the path integrator ([ray_color]) and the
    row-partitioned parallel scheduler ([render], [render_section]).

    Conventions of the embedding.
    - C++ [int] is a [Z] kept in the 32-bit range; [+], [-] and [*] on
      [int] are written with their two's-complement wrap-around
      ([CInt.wrap]); [/] truncates and has no value on a zero divisor.
    - C++ [double] is Rocq's primitive binary64 [float], so the arithmetic
      of the source is the arithmetic of the model, rounding included.
    - Code that has no value in C++ (division by zero, a [double] that
      does not fit the [int] it is converted to) returns [None].
    - Random numbers are drawn by explicit state passing over an abstract
      generator state.
    - A worker thread is the list of framebuffer writes it performs; the
      framebuffer after the join is what these writes leave behind. *)

From Stdlib Require Import ZArith List Bool Lia Floats Permutation.
From Equations Require Import Equations.
Import ListNotations.

Set Implicit Arguments.
Local Open Scope Z_scope.

(* ------------------------------------------------------------------ *)
(** ** C++ [int] *)

Module CInt.

Definition INT_MIN : Z := - 2 ^ 31.
Definition INT_MAX : Z := 2 ^ 31 - 1.

Definition in_range (z : Z) : Prop := INT_MIN <= z <= INT_MAX.

(** Reduction of an integer to the 32-bit two's-complement range. *)
Definition wrap (z : Z) : Z := (z - INT_MIN) mod 2 ^ 32 + INT_MIN.

Definition add (a b : Z) : Z := wrap (a + b).
Definition sub (a b : Z) : Z := wrap (a - b).
Definition mul (a b : Z) : Z := wrap (a * b).

(** [a / b] on [int]: truncation toward zero; no value when [b] is zero. *)
Definition div (a b : Z) : option Z :=
  if b =? 0 then None else Some (wrap (Z.quot a b)).

(** The values [lo, lo+1, ...] a counter takes, [n] of them. *)
Fixpoint count_from (lo : Z) (n : nat) : list Z :=
  match n with
  | O => []
  | S n' => lo :: count_from (lo + 1) n'
  end.

(** The values of [x] in [for (int x = lo; x < hi; x++)]. *)
Definition range (lo hi : Z) : list Z := count_from lo (Z.to_nat (hi - lo)).

End CInt.

(* ------------------------------------------------------------------ *)
(** ** C++ [double] *)

Definition double : Type := float.

Module CDouble.

(** Conversion [int] to [double]; exact for every 32-bit integer. *)
Definition of_int (z : Z) : double :=
  SF2Prim (binary_normalize prec emax z 0 false).

(** The integer part of [m * 2^e] for a positive mantissa, rounded toward
    zero. *)
Definition magnitude (m : positive) (e : Z) : Z :=
  if 0 <=? e then Z.pos m * 2 ^ e else Z.pos m / 2 ^ (- e).

(** [int(d)]: the fractional part is discarded (truncation toward zero);
    no value for NaN, the infinities and when the truncated value is not
    an [int]. *)
Definition to_int (d : double) : option Z :=
  match Prim2SF d with
  | S754_zero _ => Some 0
  | S754_finite s m e =>
      let v := if s then - magnitude m e else magnitude m e in
      if (CInt.INT_MIN <=? v) && (v <=? CInt.INT_MAX) then Some v else None
  | S754_infinity _ | S754_nan => None
  end.

(** The mathematical floor of a [double]: the greatest integer that is
    not above it. This is the spec's reading of [floor], not the code's
    conversion. *)
Definition floor (d : double) : option Z :=
  match Prim2SF d with
  | S754_zero _ => Some 0
  | S754_finite s m e =>
      let n := if s then - Z.pos m else Z.pos m in
      Some (if 0 <=? e then n * 2 ^ e else n / 2 ^ (- e))
  | S754_infinity _ | S754_nan => None
  end.

End CDouble.

(* ------------------------------------------------------------------ *)
(** ** Vectors, rays and the collaborators of the camera *)

Local Open Scope float_scope.

(** Modelled from the spec: [vec3.h] is not among the sources. The spec
    names a 3-component real-valued accumulator with addition, scalar
    scaling, a component-wise product, cross products and normalisation;
    [point3] and [color] are the same type. *)
Record vec3 : Type := mkvec3 { vx : double; vy : double; vz : double }.

Definition point3 : Type := vec3.
Definition color : Type := vec3.

Module Vec3.

(** The default-constructed vector, all components zero. *)
Definition zero : vec3 := mkvec3 0 0 0.

Definition neg (a : vec3) : vec3 := mkvec3 (- vx a) (- vy a) (- vz a).

Definition add (a b : vec3) : vec3 :=
  mkvec3 (vx a + vx b) (vy a + vy b) (vz a + vz b).

Definition sub (a b : vec3) : vec3 :=
  mkvec3 (vx a - vx b) (vy a - vy b) (vz a - vz b).

(** Component-wise product, the spec's attenuation product. *)
Definition mul (a b : vec3) : vec3 :=
  mkvec3 (vx a * vx b) (vy a * vy b) (vz a * vz b).

(** [t * v] and [v * t]. *)
Definition scale (t : double) (a : vec3) : vec3 :=
  mkvec3 (t * vx a) (t * vy a) (t * vz a).

(** [v / t], a scaling by the reciprocal. *)
Definition divide (a : vec3) (t : double) : vec3 := scale (1 / t) a.

Definition length_squared (a : vec3) : double :=
  vx a * vx a + vy a * vy a + vz a * vz a.

Definition length (a : vec3) : double := sqrt (length_squared a).

Definition cross (a b : vec3) : vec3 :=
  mkvec3 (vy a * vz b - vz a * vy b)
         (vz a * vx b - vx a * vz b)
         (vx a * vy b - vy a * vx b).

Definition unit_vector (a : vec3) : vec3 := divide a (length a).

End Vec3.

(** Modelled from the spec: [ray.h] is not among the sources. A ray is an
    origin and a direction that is not normalised. *)
Record ray : Type := mkray { origin : point3; direction : vec3 }.

(** Modelled from the spec: [interval.h] is not among the sources. The
    parametric range handed to the scene. *)
Record interval : Type := mkinterval { imin : double; imax : double }.

(* ------------------------------------------------------------------ *)
(** ** Loops and the framebuffer *)

(** [for (int x = lo; x < hi; x++) s = body x s]. *)
Definition for_loop {S : Type} (lo hi : Z) (body : Z -> S -> S) (s : S) : S :=
  fold_left (fun acc x => body x acc) (CInt.range lo hi) s.

(** A loop whose body emits events of type [E] and threads a state. *)
Fixpoint for_each {E S : Type} (xs : list Z) (body : Z -> S -> list E * S)
    (s : S) : list E * S :=
  match xs with
  | [] => ([], s)
  | x :: xs' =>
      let (e1, s1) := body x s in
      let (e2, s2) := for_each xs' body s1 in
      (e1 ++ e2, s2)
  end.

(** [std::vector<color>]: the element at [idx]. *)
Definition load (fb : list color) (idx : Z) : color :=
  nth (Z.to_nat idx) fb Vec3.zero.

Fixpoint set_nth (n : nat) (fb : list color) (v : color) : list color :=
  match fb, n with
  | [], _ => []
  | _ :: tl, O => v :: tl
  | hd :: tl, S n' => hd :: set_nth n' tl v
  end.

(** [fb[idx] = v]. An index outside the vector has no defined effect in
    C++; the model leaves the vector as it is. *)
Definition store (fb : list color) (idx : Z) (v : color) : list color :=
  if (0 <=? idx)%Z && (idx <? Z.of_nat (List.length fb))%Z
  then set_nth (Z.to_nat idx) fb v
  else fb.

(** The framebuffer that a sequence of writes leaves behind. *)
Definition apply_writes (fb : list color) (ws : list (Z * color)) : list color :=
  fold_left (fun acc w => store acc (fst w) (snd w)) ws fb.

(** All the ways the write sequences of concurrently running workers can
    interleave into one sequence of writes. *)
Inductive interleaving {A : Type} : list (list A) -> list A -> Prop :=
| interleaving_done : forall ls, Forall (fun l => l = []) ls -> interleaving ls []
| interleaving_step : forall pre x l post rest,
    interleaving (pre ++ l :: post) rest ->
    interleaving (pre ++ (x :: l) :: post) (x :: rest).

(* ------------------------------------------------------------------ *)
(** ** The camera *)

Section Camera.

(** The state of the random source and its two draws. Modelled from the
    spec: [random_double] and [random_in_unit_disk] are declared in a
    header that is not among the sources; the spec asks for uniform reals
    in [0,1) and uniform points of the unit disk, one independent stream
    per worker. *)
Variable rng : Type.
Variable random_double : rng -> double * rng.
Variable random_in_unit_disk : rng -> vec3 * rng.

(** [std::tan] of the C library and the degree-to-radian conversion of the
    missing utility header; nothing is assumed about either. *)
Variable tan : double -> double.
Variable degrees_to_radians : double -> double.

(** Modelled from the spec: [hittable.h] and [material.h] are not among
    the sources. A hit carries the intersection point, the normal, the
    parametric distance, the front-face flag and a reference to the
    material; [scatter] either yields an attenuation and an outgoing ray
    or signals absorption, and may draw random numbers. *)
Record hit_geometry : Type := mkhit_geometry {
  hit_p : point3;
  hit_normal : vec3;
  hit_t : double;
  hit_front_face : bool
}.

Record material : Type := mkmaterial {
  scatter : ray -> hit_geometry -> rng -> option (color * ray) * rng
}.

Record hit_record : Type := mkhit_record {
  geometry : hit_geometry;
  mat : material
}.

Record hittable : Type := mkhittable {
  hit : ray -> interval -> option hit_record
}.

(** The public members of [class camera]. *)
Record camera_config : Type := mkconfig {
  aspect_ratio : double;
  image_width : Z;
  samples_per_pixel : Z;
  max_depth : Z;
  vfov : double;
  lookfrom : point3;
  lookat : point3;
  vup : vec3;
  defocus_angle : double;
  focus_dist : double
}.

(** The private members that [initialize] assigns. *)
Record derived_geometry : Type := mkgeometry {
  image_height : Z;
  pixel_samples_scale : double;
  center : point3;
  pixel00_loc : point3;
  pixel_delta_u : vec3;
  pixel_delta_v : vec3;
  u : vec3;
  v : vec3;
  w : vec3;
  defocus_disk_u : vec3;
  defocus_disk_v : vec3
}.

(** An object of [class camera]: its public members, its private geometry
    and the atomic progress counter. *)
Record camera : Type := mkcamera {
  config : camera_config;
  geo : derived_geometry;
  sections_remaining : Z
}.

(** [camera::initialize]. *)
Definition initialize (c : camera) : option camera :=
  let cfg := config c in
  match CDouble.to_int (CDouble.of_int (image_width cfg) / aspect_ratio cfg) with
  | None => None
  | Some h0 =>
      let image_height := if (h0 <? 1)%Z then 1%Z else h0 in
      let pixel_samples_scale := 1 / CDouble.of_int (samples_per_pixel cfg) in
      let center := lookfrom cfg in
      let theta := degrees_to_radians (vfov cfg) in
      let h := tan (theta / 2) in
      let viewport_height := 2 * h * focus_dist cfg in
      let viewport_width :=
        viewport_height *
        (CDouble.of_int (image_width cfg) / CDouble.of_int image_height) in
      let w := Vec3.unit_vector (Vec3.sub (lookfrom cfg) (lookat cfg)) in
      let u := Vec3.unit_vector (Vec3.cross (vup cfg) w) in
      let v := Vec3.cross w u in
      let viewport_u := Vec3.scale viewport_width u in
      let viewport_v := Vec3.scale viewport_height (Vec3.neg v) in
      let pixel_delta_u := Vec3.divide viewport_u (CDouble.of_int (image_width cfg)) in
      let pixel_delta_v := Vec3.divide viewport_v (CDouble.of_int image_height) in
      let viewport_upper_left :=
        Vec3.sub
          (Vec3.sub (Vec3.sub center (Vec3.scale (focus_dist cfg) w))
                    (Vec3.divide viewport_u 2))
          (Vec3.divide viewport_v 2) in
      let pixel00_loc :=
        Vec3.add viewport_upper_left
                 (Vec3.scale 0.5 (Vec3.add pixel_delta_u pixel_delta_v)) in
      let defocus_radius :=
        focus_dist cfg * tan (degrees_to_radians (defocus_angle cfg / 2)) in
      Some (mkcamera cfg
              (mkgeometry image_height pixel_samples_scale center pixel00_loc
                          pixel_delta_u pixel_delta_v u v w
                          (Vec3.scale defocus_radius u)
                          (Vec3.scale defocus_radius v))
              (sections_remaining c))
  end.

(** [camera::sample_square]: a point of the square [-0.5, 0.5) x [-0.5, 0.5). *)
Definition sample_square (g : rng) : vec3 * rng :=
  let (a, g1) := random_double g in
  let (b, g2) := random_double g1 in
  (mkvec3 (a - 0.5) (b - 0.5) 0, g2).

(** [camera::defocus_disk_sample]. *)
Definition defocus_disk_sample (c : camera) (g : rng) : point3 * rng :=
  let (p, g1) := random_in_unit_disk g in
  (Vec3.add (Vec3.add (center (geo c))
                      (Vec3.scale (vx p) (defocus_disk_u (geo c))))
            (Vec3.scale (vy p) (defocus_disk_v (geo c))),
   g1).

(** The jittered sample position of pixel [(i, j)] for a given offset. *)
Definition pixel_sample (c : camera) (i j : Z) (offset : vec3) : point3 :=
  Vec3.add
    (Vec3.add (pixel00_loc (geo c))
              (Vec3.scale (CDouble.of_int i + vx offset) (pixel_delta_u (geo c))))
    (Vec3.scale (CDouble.of_int j + vy offset) (pixel_delta_v (geo c))).

(** [camera::get_ray]. *)
Definition get_ray (c : camera) (i j : Z) (g : rng) : ray * rng :=
  let (offset, g1) := sample_square g in
  let sample := pixel_sample c i j offset in
  let (ray_origin, g2) :=
    if defocus_angle (config c) <=? 0
    then (center (geo c), g1)
    else defocus_disk_sample c g1 in
  let ray_direction := Vec3.sub sample ray_origin in
  (mkray ray_origin ray_direction, g2).

(** The colours of the background gradient. The source writes the
    sky-blue as [color(0.5, 0.7, 1.0)]; [0.7] denotes the binary64 value
    nearest to it, spelled out here. *)
Definition black : color := mkvec3 0 0 0.
Definition white : color := mkvec3 1 1 1.
Definition skyblue : color := mkvec3 0.5 0x1.6666666666666p-1 1.

(** [interval(0.001, infinity)], the parametric range in which
    [ray_color] asks the scene for a hit; [0.001] denotes the binary64
    value nearest to it. *)
Definition visible : interval := mkinterval 0x1.0624dd2f1a9fcp-10 infinity.

(** The miss branch of [camera::ray_color]. *)
Definition background (r : ray) : color :=
  let unit_direction := Vec3.unit_vector (direction r) in
  let a := 0.5 * (vy unit_direction + 1) in
  Vec3.add (Vec3.scale (1 - a) white) (Vec3.scale a skyblue).

(** [camera::ray_color]. The recursion is on [depth], which the guard
    keeps positive at every recursive call. *)
Equations? ray_color (r : ray) (depth : Z) (world : hittable) (g : rng)
    : color * rng by wf (Z.to_nat depth) lt :=
  ray_color r depth world g with Z_le_gt_dec depth 0 := {
    | left _ => (black, g)
    | right _ with hit world r visible := {
        | Some rec with scatter (mat rec) r (geometry rec) g := {
            | (Some (attenuation, scattered), g1) =>
                let (c, g2) := ray_color scattered (CInt.sub depth 1) world g1 in
                (Vec3.mul attenuation c, g2)
            | (None, g1) => (black, g1) }
        | None => (background r, g) } }.
Proof.
  assert (CInt.sub depth 1 <= depth - 1)%Z; [ | lia ].
  unfold CInt.sub, CInt.wrap, CInt.INT_MIN.
  assert (0 <= depth - 1 + 2 ^ 31)%Z by lia.
  pose proof (Z.mod_le (depth - 1 + 2 ^ 31) (2 ^ 32)).
  replace (depth - 1 - - 2 ^ 31)%Z with (depth - 1 + 2 ^ 31)%Z by lia.
  lia.
Qed.

(** The sample loop of [camera::render_section] for pixel [(i, j)]:
    [samples_per_pixel] rays are drawn and their colours added up. *)
Definition pixel_color (c : camera) (world : hittable) (i j : Z) (g : rng)
    : color * rng :=
  for_loop 0 (samples_per_pixel (config c))
    (fun _ (acc : color * rng) =>
       let (r, g1) := get_ray c i j (snd acc) in
       let (col, g2) := ray_color r (max_depth (config c)) world g1 in
       (Vec3.add (fst acc) col, g2))
    (mkvec3 0 0 0, g).

(** The colours of [n] consecutive samples of pixel [(i, j)], each
    [ray_color (get_ray i j) max_depth world], drawn one after the other
    from the stream [g]. *)
Fixpoint sample_colors (c : camera) (world : hittable) (i j : Z) (n : nat)
    (g : rng) : list color :=
  match n with
  | O => []
  | S n' =>
      let (r, g1) := get_ray c i j g in
      let (col, g2) := ray_color r (max_depth (config c)) world g1 in
      col :: sample_colors c world i j n' g2
  end.

(** The sum of a list of colours, accumulated from black with [+=]. *)
Definition sum_colors (cs : list color) : color :=
  fold_left Vec3.add cs (mkvec3 0 0 0).

(** [int index = j * image_width + i]. *)
Definition pixel_index (c : camera) (i j : Z) : Z :=
  CInt.add (CInt.mul j (image_width (config c))) i.

(** The row and column loops of [camera::render_section]: the writes
    [framebuffer[index] = pixel_color] of one worker, in program order,
    and the state in which the worker leaves its random stream. *)
Definition render_section (c : camera) (world : hittable)
    (start_row end_row : Z) (g : rng) : list (Z * color) * rng :=
  for_each (CInt.range start_row end_row)
    (fun j =>
       for_each (CInt.range 0 (image_width (config c)))
         (fun i g0 =>
            let (pixel, g1) := pixel_color c world i j g0 in
            ([(pixel_index c i j, pixel)], g1)))
    g.

(** The framebuffer indices that [render_section] addresses on the rows
    [start_row, end_row), in program order. *)
Definition row_indices (c : camera) (j : Z) : list Z :=
  map (fun i => pixel_index c i j) (CInt.range 0 (image_width (config c))).

Definition section_indices (c : camera) (start_row end_row : Z) : list Z :=
  flat_map (row_indices c) (CInt.range start_row end_row).

(** The row range [start_row, end_row) that the thread loop of
    [camera::render] hands to worker [t]. *)
Definition start_row (rows_per_thread t : Z) : Z := CInt.mul t rows_per_thread.

Definition end_row (image_height thread_count rows_per_thread t : Z) : Z :=
  if (t =? CInt.sub thread_count 1)%Z
  then image_height
  else CInt.add (start_row rows_per_thread t) rows_per_thread.

(** The ranges of all workers, in the order the threads are created; no
    value when [image_height / thread_count] has none. *)
Definition row_ranges (image_height thread_count : Z) : option (list (Z * Z)) :=
  match CInt.div image_height thread_count with
  | None => None
  | Some rows_per_thread =>
      Some (map (fun t => (start_row rows_per_thread t,
                           end_row image_height thread_count rows_per_thread t))
                (CInt.range 0 thread_count))
  end.

(** The row at which the range of worker [t] begins when the rows are
    handed out [rows_per_thread] at a time, the bound after the last
    worker being the image height. *)
Definition boundary (image_height thread_count t : Z) : Z :=
  if (t <? thread_count)%Z then (t * (image_height / thread_count))%Z
  else image_height.

(** What a call of [camera::render] produces: the header values, the
    framebuffer once every worker has been joined, and the colours handed
    to [write_color], in order. *)
Record render_output : Type := mkoutput {
  out_width : Z;
  out_height : Z;
  framebuffer : list color;
  emitted : list color
}.

(** The value-initialised [std::vector<color>] of [camera::render]. *)
Definition fresh_framebuffer (c : camera) : list color :=
  repeat Vec3.zero
         (Z.to_nat (CInt.mul (image_width (config c)) (image_height (geo c)))).

(** The emission loops of [camera::render]. *)
Definition emit (c : camera) (fb : list color) : list color :=
  flat_map
    (fun j =>
       map (fun i =>
              Vec3.scale (pixel_samples_scale (geo c)) (load fb (pixel_index c i j)))
           (CInt.range 0 (image_width (config c))))
    (CInt.range 0 (image_height (geo c))).

(** The thread loop of [camera::render] on an initialised camera: the
    write sequence of every worker, in the order the threads are created,
    worker [t] drawing from the stream [stream t]. *)
Definition worker_writes (c : camera) (world : hittable) (stream : Z -> rng)
    (thread_count rows_per_thread : Z) : list (list (Z * color)) :=
  map (fun t =>
         fst (render_section c world
                (start_row rows_per_thread t)
                (end_row (image_height (geo c)) thread_count rows_per_thread t)
                (stream t)))
      (CInt.range 0 thread_count).

(** [camera::render]. [hardware_concurrency] is the value that
    [std::thread::hardware_concurrency()] reports. The workers' writes are
    applied worker after worker; any other interleaving of them leaves the
    same framebuffer (see [render_any_interleaving]). Each worker
    decrements the progress counter once. *)
Definition render (c : camera) (hardware_concurrency : Z) (world : hittable)
    (stream : Z -> rng) : option (camera * render_output) :=
  match initialize c with
  | None => None
  | Some c1 =>
      let fb0 := fresh_framebuffer c1 in
      let thread_count := CInt.wrap hardware_concurrency in
      match CInt.div (image_height (geo c1)) thread_count with
      | None => None
      | Some rows_per_thread =>
          let c2 := mkcamera (config c1) (geo c1) thread_count in
          let writes := worker_writes c2 world stream thread_count rows_per_thread in
          let fb := apply_writes fb0 (concat writes) in
          let remaining :=
            for_loop 0 thread_count (fun _ n => CInt.sub n 1) thread_count in
          Some (mkcamera (config c2) (geo c2) remaining,
                mkoutput (image_width (config c2)) (image_height (geo c2))
                         fb (emit c2 fb))
      end
  end.

End Camera.

Arguments ray_color {rng} r depth world g.
Arguments get_ray {rng} random_double random_in_unit_disk c i j g.
Arguments sample_square {rng} random_double g.
Arguments render {rng} random_double random_in_unit_disk tan degrees_to_radians
  c hardware_concurrency world stream.

(* ------------------------------------------------------------------ *)
(** ** The path behind a colour *)

Section PathRecord.

Variable rng : Type.

(** How the path that [ray_color] follows comes to its end: the depth
    runs out, a material absorbs the ray, or the ray leaves the scene. *)
Inductive path_end : Type :=
| PathExhausted
| PathAbsorbed
| PathMissed (r : ray).

(** The colour [ray_color] returns where the path ends. *)
Definition end_color (e : path_end) : color :=
  match e with
  | PathExhausted | PathAbsorbed => mkvec3 0 0 0
  | PathMissed r => background r
  end.

(** The recursion of [camera::ray_color] with its path written down: the
    attenuations of the successive scatters, first bounce first, how the
    path ends, and the random stream afterwards. *)
Equations? ray_path (r : ray) (depth : Z) (world : hittable rng) (g : rng)
    : list color * path_end * rng by wf (Z.to_nat depth) lt :=
  ray_path r depth world g with Z_le_gt_dec depth 0 := {
    | left _ => ([], PathExhausted, g)
    | right _ with hit world r visible := {
        | Some rec with scatter (mat rec) r (geometry rec) g := {
            | (Some (attenuation, scattered), g1) =>
                let '(atts, e, g2) :=
                  ray_path scattered (CInt.sub depth 1) world g1 in
                (attenuation :: atts, e, g2)
            | (None, g1) => ([], PathAbsorbed, g1) }
        | None => ([], PathMissed r, g) } }.
Proof.
  assert (CInt.sub depth 1 <= depth - 1)%Z; [ | lia ].
  unfold CInt.sub, CInt.wrap, CInt.INT_MIN.
  assert (0 <= depth - 1 + 2 ^ 31)%Z by lia.
  pose proof (Z.mod_le (depth - 1 + 2 ^ 31) (2 ^ 32)).
  replace (depth - 1 - - 2 ^ 31)%Z with (depth - 1 + 2 ^ 31)%Z by lia.
  lia.
Qed.

End PathRecord.

(* ------------------------------------------------------------------ *)
(** ** What the scheduler owes: a partition of the rows, one writer per index *)

Local Close Scope float_scope.

(** The range of worker [t] in a list of ranges. *)
Definition range_of (ranges : list (Z * Z)) (t : Z) : Z * Z :=
  nth (Z.to_nat t) ranges (0, 0).

(** The ranges lie end to end from row 0 to row [H]: the first begins at
    0, none runs backwards, each begins where its predecessor ended and
    the last ends at [H]. *)
Definition contiguous (H : Z) (ranges : list (Z * Z)) : Prop :=
  let n := Z.of_nat (List.length ranges) in
  fst (range_of ranges 0) = 0
  /\ (forall t, 0 <= t < n -> fst (range_of ranges t) <= snd (range_of ranges t))
  /\ (forall t, 0 <= t -> t + 1 < n ->
        snd (range_of ranges t) = fst (range_of ranges (t + 1)))
  /\ snd (range_of ranges (n - 1)) = H.

(** Every row of [0, H) lies in the range of exactly one worker. *)
Definition covers_once (H : Z) (ranges : list (Z * Z)) : Prop :=
  forall row, 0 <= row < H ->
    exists! t, 0 <= t < Z.of_nat (List.length ranges)
               /\ fst (range_of ranges t) <= row < snd (range_of ranges t).

(** The rows of the workers, one worker after the other, are the rows
    0, 1, ..., H-1: no gap, no overlap, no row twice. *)
Definition rows_in_order (H : Z) (ranges : list (Z * Z)) : Prop :=
  concat (map (fun r => CInt.range (fst r) (snd r)) ranges) = CInt.range 0 H.

(** Every index of [0, size) is written by exactly one worker, and by
    that worker exactly once. *)
Definition single_writer (writes : list (list (Z * color))) (size : Z) : Prop :=
  forall idx, 0 <= idx < size ->
    (exists! t, 0 <= t < Z.of_nat (List.length writes)
                /\ In idx (map fst (nth (Z.to_nat t) writes [])))
    /\ count_occ Z.eq_dec (map fst (concat writes)) idx = 1%nat.

Local Open Scope float_scope.

(* ------------------------------------------------------------------ *)
(** ** A concrete scene and camera, used to run the model *)

Module Demo.

(** A counter as generator state; every draw returns the centre of its
    range and advances the counter. *)
Definition rng : Type := Z.
Definition random_double (g : rng) : double * rng := (0.5, (g + 1)%Z).
Definition random_in_unit_disk (g : rng) : vec3 * rng :=
  (mkvec3 0.5 0.25 0, (g + 1)%Z).

(** Stand-ins for the two library functions. *)
Definition tan (x : double) : double := x.
Definition degrees_to_radians (x : double) : double := x / 64.

(** A grey surface that scatters straight up, and one that absorbs. *)
Definition grey : material rng :=
  mkmaterial (fun _ h g =>
    (Some (mkvec3 0.5 0.5 0.5, mkray (hit_p h) (mkvec3 0 1 0)), (g + 1)%Z)).
Definition absorber : material rng :=
  mkmaterial (fun _ _ g => (None, (g + 1)%Z)).

Definition hit_at (r : ray) (m : material rng) : hit_record rng :=
  mkhit_record (mkhit_geometry (origin r) (mkvec3 0 1 0) 1 true) m.

(** A floor seen by every ray that points down. *)
Definition floor_of (m : material rng) : hittable rng :=
  mkhittable (fun r _ => if vy (direction r) <? 0 then Some (hit_at r m) else None).

Definition empty_scene : hittable rng := mkhittable (fun _ _ => None).

Definition down : ray := mkray (mkvec3 0 1 0) (mkvec3 0 (-1) 0).
Definition up : ray := mkray (mkvec3 0 1 0) (mkvec3 0 1 0).

Definition no_geometry : derived_geometry :=
  mkgeometry 0 0 Vec3.zero Vec3.zero Vec3.zero Vec3.zero Vec3.zero Vec3.zero
             Vec3.zero Vec3.zero Vec3.zero.

(** The default members of [class camera]. *)
Definition default_config : camera_config :=
  mkconfig (16 / 9) 400 10 10 90 (mkvec3 0 0 0) (mkvec3 0 0 (-1)) (mkvec3 0 1 0) 0 10.

(** A 4 x 2 image, two samples per pixel. *)
Definition small_config : camera_config :=
  mkconfig 2 4 2 3 90 (mkvec3 0 0 0) (mkvec3 0 0 (-1)) (mkvec3 0 1 0) 0 10.

Definition default_camera : camera := mkcamera default_config no_geometry 0.
Definition small_camera : camera := mkcamera small_config no_geometry 0.

Definition stream (t : Z) : rng := (1000 * t)%Z.

(** The small camera once [initialize] has run. *)
Definition ready_camera : camera :=
  match initialize tan degrees_to_radians small_camera with
  | Some c => c
  | None => small_camera
  end.

End Demo.

(** Cameras at the edges of the configuration: no depth, no samples, a
    NaN lens angle, no width, an aspect ratio of zero. *)
Module DemoEdges.

Definition initialized (c : camera) : camera :=
  match initialize Demo.tan Demo.degrees_to_radians c with
  | Some c1 => c1
  | None => c
  end.

Definition flat_camera : camera :=
  mkcamera (mkconfig 2 4 2 0 90 (mkvec3 0 0 0) (mkvec3 0 0 (-1)) (mkvec3 0 1 0) 0 10)
           Demo.no_geometry 0.

Definition unsampled_camera : camera :=
  mkcamera (mkconfig 2 4 0 3 90 (mkvec3 0 0 0) (mkvec3 0 0 (-1)) (mkvec3 0 1 0) 0 10)
           Demo.no_geometry 0.


Definition empty_camera : camera :=
  mkcamera (mkconfig 2 0 2 3 90 (mkvec3 0 0 0) (mkvec3 0 0 (-1)) (mkvec3 0 1 0) 0 10)
           Demo.no_geometry 0.

Definition flat_aspect_camera : camera :=
  mkcamera (mkconfig 0 400 10 10 90 (mkvec3 0 0 0) (mkvec3 0 0 (-1)) (mkvec3 0 1 0) 0 10)
           Demo.no_geometry 0.

End DemoEdges.

(* ------------------------------------------------------------------ *)
(** ** Facts about [int] arithmetic and loops *)

Lemma wrap_in_range (z : Z) : CInt.in_range z -> CInt.wrap z = z.
Proof.
  unfold CInt.in_range, CInt.wrap, CInt.INT_MIN, CInt.INT_MAX. intros Hz.
  rewrite Z.mod_small; lia.
Qed.

Lemma count_from_length (n : nat) (lo : Z) : List.length (CInt.count_from lo n) = n.
Proof.
  revert lo. induction n as [|n IH]; intros lo; simpl; [reflexivity|].
  now rewrite IH.
Qed.

Lemma count_from_In (n : nat) (lo x : Z) :
  In x (CInt.count_from lo n) <-> (lo <= x < lo + Z.of_nat n)%Z.
Proof.
  revert lo. induction n as [|n IH]; intros lo; simpl.
  - split; [tauto | lia].
  - rewrite IH. lia.
Qed.

Lemma count_from_app (n m : nat) (lo : Z) :
  CInt.count_from lo (n + m) =
  CInt.count_from lo n ++ CInt.count_from (lo + Z.of_nat n) m.
Proof.
  revert lo. induction n as [|n IH]; intros lo.
  - simpl. now rewrite Z.add_0_r.
  - cbn [Nat.add CInt.count_from app]. rewrite IH. do 3 f_equal. lia.
Qed.

Lemma count_from_NoDup (n : nat) (lo : Z) : NoDup (CInt.count_from lo n).
Proof.
  revert lo. induction n as [|n IH]; intros lo; simpl; constructor; auto.
  rewrite count_from_In. lia.
Qed.

Lemma count_from_nth (n : nat) (lo : Z) (k : nat) (d : Z) :
  (k < n)%nat -> nth k (CInt.count_from lo n) d = (lo + Z.of_nat k)%Z.
Proof.
  revert lo k. induction n as [|n IH]; intros lo k Hk; [lia|].
  destruct k as [|k]; simpl; [lia|].
  rewrite IH by lia. lia.
Qed.

Lemma range_In (lo hi x : Z) : In x (CInt.range lo hi) <-> (lo <= x < hi)%Z.
Proof. unfold CInt.range. rewrite count_from_In. lia. Qed.

Lemma range_empty (lo hi : Z) : (hi <= lo)%Z -> CInt.range lo hi = [].
Proof.
  intros H. unfold CInt.range.
  replace (Z.to_nat (hi - lo)) with 0%nat by lia. reflexivity.
Qed.

Lemma range_split (lo mid hi : Z) :
  (lo <= mid <= hi)%Z ->
  CInt.range lo hi = CInt.range lo mid ++ CInt.range mid hi.
Proof.
  intros H. unfold CInt.range.
  replace (Z.to_nat (hi - lo)) with (Z.to_nat (mid - lo) + Z.to_nat (hi - mid))%nat by lia.
  rewrite count_from_app. do 2 f_equal. lia.
Qed.

Lemma range_NoDup (lo hi : Z) : NoDup (CInt.range lo hi).
Proof. apply count_from_NoDup. Qed.

Lemma range_length (lo hi : Z) : List.length (CInt.range lo hi) = Z.to_nat (hi - lo).
Proof. apply count_from_length. Qed.

(* ------------------------------------------------------------------ *)
(** ** The path integrator *)

Section PathIntegrator.

Variable rng : Type.
Implicit Types (r : ray) (world : hittable rng) (g : rng).

(** C3. With [depth <= 0] the path integrator returns black whatever the
    ray and the scene: the scene is not asked for a hit and the material
    is not asked to scatter, so the random stream is returned untouched. *)
Theorem ray_color_depth_exhausted r depth world g :
  (depth <= 0)%Z -> ray_color r depth world g = (mkvec3 0 0 0, g).
Proof.
  intros Hd. rewrite ray_color_equation_1.
  destruct (Z_le_gt_dec depth 0) as [Hle|Hgt]; [reflexivity | lia].
Qed.

(** Unfolding of [ray_color] below the depth guard. *)
Lemma ray_color_positive r depth world g :
  (0 < depth)%Z ->
  ray_color r depth world g =
  match hit world r visible with
  | Some rec =>
      match scatter (mat rec) r (geometry rec) g with
      | (Some (attenuation, scattered), g1) =>
          let (c, g2) := ray_color scattered (CInt.sub depth 1) world g1 in
          (Vec3.mul attenuation c, g2)
      | (None, g1) => (black, g1)
      end
  | None => (background r, g)
  end.
Proof.
  intros Hd. rewrite ray_color_equation_1.
  destruct (Z_le_gt_dec depth 0) as [Hle|Hgt]; [lia|].
  cbn.
  destruct (hit world r visible) as [rec|]; [|reflexivity].
  cbn. destruct (scatter (mat rec) r (geometry rec) g) as [[[att sc]|] g1];
    reflexivity.
Qed.

(** C2. At depth at least 1, when the scene reports a hit the material
    of the hit is asked to scatter; if it scatters, the result is the
    attenuation multiplied component by component with the colour of the
    outgoing ray at depth - 1, and if it absorbs the result is black. *)
Theorem ray_color_hit r depth world g rec :
  (1 <= depth <= CInt.INT_MAX)%Z ->
  hit world r visible = Some rec ->
  (forall attenuation scattered g1,
      scatter (mat rec) r (geometry rec) g = (Some (attenuation, scattered), g1) ->
      ray_color r depth world g =
      (Vec3.mul attenuation (fst (ray_color scattered (depth - 1) world g1)),
       snd (ray_color scattered (depth - 1) world g1)))
  /\ (forall g1,
      scatter (mat rec) r (geometry rec) g = (None, g1) ->
      ray_color r depth world g = (mkvec3 0 0 0, g1)).
Proof.
  intros Hd Hhit.
  assert (Hsub : CInt.sub depth 1 = (depth - 1)%Z).
  { apply wrap_in_range. unfold CInt.in_range, CInt.INT_MIN, CInt.INT_MAX in *. lia. }
  split.
  - intros att sc g1 Hsc.
    rewrite ray_color_positive by lia. rewrite Hhit, Hsc, Hsub.
    destruct (ray_color sc (depth - 1) world g1); reflexivity.
  - intros g1 Hsc.
    rewrite ray_color_positive by lia. now rewrite Hhit, Hsc.
Qed.

(** C4. At depth at least 1, a ray that misses the scene gets the
    background gradient (1 - a) * white + a * skyblue with
    a = 0.5 * (y + 1) for y the vertical component of the normalised
    direction; straight up this is exactly the sky-blue (0.5, 0.7, 1.0) and
    straight down exactly white (1, 1, 1). *)
Theorem ray_color_miss r depth world g :
  (1 <= depth)%Z ->
  hit world r visible = None ->
  let a := 0.5 * (vy (Vec3.unit_vector (direction r)) + 1) in
  ray_color r depth world g =
    (Vec3.add (Vec3.scale (1 - a) (mkvec3 1 1 1))
              (Vec3.scale a (mkvec3 0.5 0x1.6666666666666p-1 1)), g)
  /\ (direction r = mkvec3 0 1 0 ->
      ray_color r depth world g = (mkvec3 0.5 0x1.6666666666666p-1 1, g))
  /\ (direction r = mkvec3 0 (-1) 0 ->
      ray_color r depth world g = (mkvec3 1 1 1, g)).
Proof.
  intros Hd Hmiss. cbv zeta.
  assert (E : ray_color r depth world g = (background r, g)).
  { rewrite ray_color_positive by lia. now rewrite Hmiss. }
  rewrite E. unfold background.
  split; [reflexivity|].
  split; intros Hdir; rewrite Hdir; vm_compute; reflexivity.
Qed.

End PathIntegrator.

Lemma ray_color_depth_exhausted_witness :
  (-3 <= 0)%Z /\
  ray_color Demo.down (-3) (Demo.floor_of Demo.grey) 7%Z = (mkvec3 0 0 0, 7%Z).
Proof.
  split; [lia|]. apply ray_color_depth_exhausted. lia.
Defined.

Lemma ray_color_hit_witness :
  hit (Demo.floor_of Demo.grey) Demo.down visible
    = Some (Demo.hit_at Demo.down Demo.grey)
  /\ ray_color Demo.down 2 (Demo.floor_of Demo.grey) 0%Z
    = (mkvec3 0.25 0x1.6666666666666p-2 0.5, 1%Z)
  /\ ray_color Demo.down 2 (Demo.floor_of Demo.absorber) 0%Z
    = (mkvec3 0 0 0, 1%Z).
Proof.
  split; [reflexivity|]. split.
  - refine (proj1 (@ray_color_hit Demo.rng Demo.down 2 (Demo.floor_of Demo.grey)
                     0%Z (Demo.hit_at Demo.down Demo.grey) _ eq_refl)
                  (mkvec3 0.5 0.5 0.5) Demo.up 1%Z eq_refl).
    unfold CInt.INT_MAX. lia.
  - refine (proj2 (@ray_color_hit Demo.rng Demo.down 2 (Demo.floor_of Demo.absorber)
                     0%Z (Demo.hit_at Demo.down Demo.absorber) _ eq_refl)
                  1%Z eq_refl).
    unfold CInt.INT_MAX. lia.
Defined.

Lemma ray_color_miss_witness :
  ray_color Demo.up 1 Demo.empty_scene 4%Z
    = (mkvec3 0.5 0x1.6666666666666p-1 1, 4%Z)
  /\ ray_color Demo.down 1 Demo.empty_scene 4%Z = (mkvec3 1 1 1, 4%Z).
Proof.
  split.
  - refine (proj1 (proj2 (@ray_color_miss Demo.rng Demo.up 1 Demo.empty_scene
                            4%Z _ eq_refl)) eq_refl). lia.
  - refine (proj2 (proj2 (@ray_color_miss Demo.rng Demo.down 1 Demo.empty_scene
                            4%Z _ eq_refl)) eq_refl). lia.
Defined.

(* ------------------------------------------------------------------ *)
(** ** Geometry setup and the ray sampler *)

Lemma in_range_test (v : Z) :
  (CInt.INT_MIN <= v <= CInt.INT_MAX)%Z ->
  (CInt.INT_MIN <=? v)%Z && (v <=? CInt.INT_MAX)%Z = true.
Proof. intros H. apply andb_true_iff. split; apply Z.leb_le; lia. Qed.

(** Below zero, the quotient rounded toward zero is the floor or its
    successor. *)
Lemma opp_div_bounds (m d : Z) :
  (0 < m)%Z -> (0 < d)%Z -> (- m / d <= - (m / d) <= - m / d + 1)%Z /\ (- m / d < 0)%Z.
Proof.
  intros Hm Hd.
  pose proof (Z.div_mod m d ltac:(lia)) as D1.
  pose proof (Z.mod_pos_bound m d Hd) as B1.
  pose proof (Z.div_mod (- m) d ltac:(lia)) as D2.
  pose proof (Z.mod_pos_bound (- m) d Hd) as B2.
  assert (0 <= m / d)%Z by (apply Z.div_pos; lia).
  split; nia.
Qed.

(** Truncation and floor of a binary64 value agree from zero upward, and
    below zero both are at most zero. *)
Lemma to_int_floor (d : double) (n : Z) :
  CDouble.floor d = Some n ->
  (CInt.INT_MIN <= n <= CInt.INT_MAX)%Z ->
  exists k, CDouble.to_int d = Some k
            /\ ((0 <= n)%Z -> k = n)
            /\ ((n < 0)%Z -> (k <= 0)%Z).
Proof.
  unfold CDouble.floor, CDouble.to_int, CDouble.magnitude.
  destruct (Prim2SF d) as [s|s| |s m e]; try discriminate.
  - intros [= <-] _. exists 0%Z. repeat split; lia.
  - intros [= <-] Hr.
    pose proof (Pos2Z.opp_pos m) as Hopp.
    pose proof (Pos2Z.is_pos m) as Hm.
    destruct s; destruct (0 <=? e)%Z eqn:He;
      [ apply Z.leb_le in He | apply Z.leb_gt in He
      | apply Z.leb_le in He | apply Z.leb_gt in He ];
      cbv beta iota zeta in Hr |- *; rewrite <- ?Hopp in *.
    + (* negative, integral *)
      pose proof (Z.pow_pos_nonneg 2 e ltac:(lia) He) as Hp.
      replace (- Z.pos m * 2 ^ e)%Z with (- (Z.pos m * 2 ^ e))%Z in * by lia.
      rewrite in_range_test by lia.
      eexists. split; [reflexivity|]. split; intros; nia.
    + (* negative, with a fractional part *)
      pose proof (Z.pow_pos_nonneg 2 (- e) ltac:(lia) ltac:(lia)) as Hp.
      destruct (opp_div_bounds Hm Hp) as [Hb Hlt].
      rewrite in_range_test by (unfold CInt.INT_MIN, CInt.INT_MAX in *; lia).
      eexists. split; [reflexivity|]. split; intros; lia.
    + (* positive, integral *)
      rewrite in_range_test by lia.
      eexists. split; [reflexivity|]. split; intros; lia.
    + (* positive, with a fractional part *)
      rewrite in_range_test by lia.
      eexists. split; [reflexivity|]. split; intros; lia.
Qed.

Section Geometry.

Variable rng : Type.
Variable random_double : rng -> double * rng.
Variable random_in_unit_disk : rng -> vec3 * rng.
Variable tan : double -> double.
Variable degrees_to_radians : double -> double.

(** [initialize] keeps the public members and puts the centre at
    [lookfrom]. *)
Lemma initialize_config (c c' : camera) :
  initialize tan degrees_to_radians c = Some c' ->
  config c' = config c /\ center (geo c') = lookfrom (config c)
  /\ sections_remaining c' = sections_remaining c.
Proof.
  unfold initialize.
  destruct (CDouble.to_int _) as [h0|]; [|discriminate].
  intros [= <-]. repeat split.
Qed.

(** C8. The derived image height is max(1, floor(image_width /
    aspect_ratio)), the quotient being the binary64 quotient of the source
    and its floor an [int]. *)
Theorem initialize_image_height (c : camera) (n : Z) :
  CDouble.floor (CDouble.of_int (image_width (config c)) / aspect_ratio (config c))
    = Some n ->
  (CInt.INT_MIN <= n <= CInt.INT_MAX)%Z ->
  exists c', initialize tan degrees_to_radians c = Some c'
             /\ image_height (geo c') = Z.max 1 n.
Proof.
  intros Hfloor Hrange.
  destruct (to_int_floor _ Hfloor Hrange) as (k & Hk & Hpos & Hneg).
  unfold initialize. rewrite Hk.
  eexists. split; [reflexivity|]. cbn.
  destruct (k <? 1)%Z eqn:E;
    [apply Z.ltb_lt in E | apply Z.ltb_ge in E]; lia.
Qed.

(** C7. With [defocus_angle <= 0] the ray of pixel [(i, j)] starts at the
    camera centre exactly, its direction is the jittered sample position
    minus that centre, and the lens disk is not sampled: the only draws
    are those of the pixel jitter. *)
Theorem get_ray_without_defocus (c : camera) (i j : Z) (g : rng) :
  (defocus_angle (config c) <=? 0) = true ->
  let offset := fst (sample_square random_double g) in
  let r := fst (get_ray random_double random_in_unit_disk c i j g) in
  origin r = center (geo c)
  /\ direction r = Vec3.sub (pixel_sample c i j offset) (center (geo c))
  /\ snd (get_ray random_double random_in_unit_disk c i j g)
     = snd (sample_square random_double g).
Proof.
  intros Hangle. cbv zeta. unfold get_ray. rewrite Hangle.
  destruct (sample_square random_double g) as [offset g1].
  repeat split.
Qed.

End Geometry.

Lemma initialize_image_height_witness :
  CDouble.floor (CDouble.of_int 400 / (16 / 9)) = Some 225%Z
  /\ exists c', initialize Demo.tan Demo.degrees_to_radians Demo.default_camera = Some c'
                /\ image_height (geo c') = Z.max 1 225.
Proof.
  split; [reflexivity|].
  apply (@initialize_image_height Demo.tan Demo.degrees_to_radians
           Demo.default_camera 225 eq_refl).
  unfold CInt.INT_MIN, CInt.INT_MAX. lia.
Defined.

Lemma get_ray_without_defocus_witness :
  (defocus_angle (config Demo.small_camera) <=? 0) = true
  /\ origin (fst (get_ray Demo.random_double Demo.random_in_unit_disk
                    Demo.small_camera 1 1 0%Z))
     = center (geo Demo.small_camera).
Proof.
  split; [reflexivity|].
  exact (proj1 (@get_ray_without_defocus Demo.rng Demo.random_double
                  Demo.random_in_unit_disk Demo.small_camera 1 1 0%Z eq_refl)).
Defined.

(* ------------------------------------------------------------------ *)
(** ** The row partition of the scheduler *)

Local Close Scope float_scope.

Section Partition.

(** The image height [H] and the worker count [W], both of type [int]. *)
Variables H W : Z.
Hypothesis W_pos : (1 <= W <= CInt.INT_MAX)%Z.
Hypothesis H_int : (0 <= H <= CInt.INT_MAX)%Z.

Lemma rows_per_thread_bounds : (0 <= H / W)%Z /\ (W * (H / W) <= H)%Z.
Proof.
  split; [apply Z.div_pos; lia | apply Z.mul_div_le; lia].
Qed.

Lemma rows_per_thread_value : CInt.div H W = Some (H / W)%Z.
Proof.
  unfold CInt.div. destruct (W =? 0)%Z eqn:E; [apply Z.eqb_eq in E; lia|].
  rewrite Z.quot_div_nonneg by lia.
  rewrite wrap_in_range; [reflexivity|].
  destruct rows_per_thread_bounds as [B1 B2].
  unfold CInt.in_range, CInt.INT_MIN, CInt.INT_MAX in *. nia.
Qed.

Lemma start_row_value (t : Z) :
  (0 <= t < W)%Z -> start_row (H / W) t = boundary H W t.
Proof.
  intros Ht. unfold start_row, boundary, CInt.mul.
  destruct (t <? W)%Z eqn:E; [|apply Z.ltb_ge in E; lia].
  apply wrap_in_range.
  destruct rows_per_thread_bounds as [B1 B2].
  unfold CInt.in_range, CInt.INT_MIN, CInt.INT_MAX in *. nia.
Qed.

Lemma end_row_value (t : Z) :
  (0 <= t < W)%Z -> end_row H W (H / W) t = boundary H W (t + 1).
Proof.
  intros Ht. unfold end_row.
  assert (E1 : CInt.sub W 1 = (W - 1)%Z).
  { apply wrap_in_range. unfold CInt.in_range, CInt.INT_MIN, CInt.INT_MAX in *. lia. }
  rewrite E1, (start_row_value Ht). unfold boundary.
  destruct rows_per_thread_bounds as [B1 B2].
  destruct (t =? W - 1)%Z eqn:E; [apply Z.eqb_eq in E | apply Z.eqb_neq in E].
  - destruct (t + 1 <? W)%Z eqn:E2; [apply Z.ltb_lt in E2; lia | reflexivity].
  - destruct (t <? W)%Z eqn:E3; [|apply Z.ltb_ge in E3; lia].
    destruct (t + 1 <? W)%Z eqn:E2; [|apply Z.ltb_ge in E2; lia].
    unfold CInt.add. rewrite wrap_in_range; [lia|].
    unfold CInt.in_range, CInt.INT_MIN, CInt.INT_MAX in *. nia.
Qed.

Lemma boundary_first : boundary H W 0 = 0%Z.
Proof.
  unfold boundary. destruct (0 <? W)%Z eqn:E; [lia | apply Z.ltb_ge in E; lia].
Qed.

Lemma boundary_last : boundary H W W = H.
Proof. unfold boundary. now rewrite Z.ltb_irrefl. Qed.

Lemma boundary_mono (a b : Z) :
  (0 <= a <= b)%Z -> (b <= W)%Z -> (boundary H W a <= boundary H W b)%Z.
Proof.
  intros Hab Hb. unfold boundary.
  destruct rows_per_thread_bounds as [B1 B2].
  destruct (a <? W)%Z eqn:Ea; [apply Z.ltb_lt in Ea | apply Z.ltb_ge in Ea];
    (destruct (b <? W)%Z eqn:Eb; [apply Z.ltb_lt in Eb | apply Z.ltb_ge in Eb]);
    nia.
Qed.

Lemma boundary_nonneg (a : Z) : (0 <= a <= W)%Z -> (0 <= boundary H W a <= H)%Z.
Proof.
  intros Ha.
  pose proof (@boundary_mono 0 a ltac:(lia) ltac:(lia)) as B0.
  pose proof (@boundary_mono a W ltac:(lia) ltac:(lia)) as B1.
  rewrite boundary_first in B0. rewrite boundary_last in B1. lia.
Qed.

(** The ranges the thread loop computes are the consecutive boundaries. *)
Lemma row_ranges_value :
  row_ranges H W =
  Some (map (fun t => (boundary H W t, boundary H W (t + 1))) (CInt.range 0 W)).
Proof.
  unfold row_ranges. rewrite rows_per_thread_value. f_equal.
  apply map_ext_in. intros t Ht. apply range_In in Ht.
  now rewrite start_row_value, end_row_value.
Qed.

(** Every row lies between the boundaries of exactly one worker. *)
Lemma row_owner (row : Z) :
  (0 <= row < H)%Z ->
  exists! t, (0 <= t < W)%Z /\ (boundary H W t <= row < boundary H W (t + 1))%Z.
Proof.
  intros Hrow.
  destruct rows_per_thread_bounds as [B1 B2].
  assert (Hex : exists t, (0 <= t < W)%Z
                          /\ (boundary H W t <= row < boundary H W (t + 1))%Z).
  { destruct (Z_lt_le_dec row ((W - 1) * (H / W))) as [Hlt|Hge].
    - assert (Hr : (0 < H / W)%Z) by nia.
      exists (row / (H / W))%Z.
      pose proof (Z.div_mod row (H / W) ltac:(lia)) as D.
      pose proof (Z.mod_pos_bound row (H / W) Hr) as B.
      assert (0 <= row / (H / W))%Z by (apply Z.div_pos; lia).
      assert (row / (H / W) < W - 1)%Z by nia.
      split; [lia|]. unfold boundary.
      destruct (row / (H / W) <? W)%Z eqn:E1; [|apply Z.ltb_ge in E1; lia].
      destruct (row / (H / W) + 1 <? W)%Z eqn:E2; [|apply Z.ltb_ge in E2; lia].
      nia.
    - exists (W - 1)%Z. split; [lia|]. unfold boundary.
      destruct (W - 1 <? W)%Z eqn:E1; [|apply Z.ltb_ge in E1; lia].
      destruct (W - 1 + 1 <? W)%Z eqn:E2; [apply Z.ltb_lt in E2; lia|].
      lia. }
  destruct Hex as (t & Ht & Hin).
  exists t. split; [now split|].
  intros t' (Ht' & Hin').
  destruct (Z.lt_trichotomy t t') as [Hlt|[Heq|Hgt]]; [|assumption|].
  - pose proof (@boundary_mono (t + 1) t' ltac:(lia) ltac:(lia)). lia.
  - pose proof (@boundary_mono (t' + 1) t ltac:(lia) ltac:(lia)). lia.
Qed.

End Partition.

(* ------------------------------------------------------------------ *)
(** ** Ranges laid end to end, and the indices of a grid *)

(** Consecutive ranges with increasing bounds concatenate to one range. *)
Lemma chained_ranges (f : Z -> Z) (n : nat) (t0 : Z) :
  (forall t, (t0 <= t < t0 + Z.of_nat n)%Z -> (f t <= f (t + 1))%Z) ->
  concat (map (fun t => CInt.range (f t) (f (t + 1))) (CInt.count_from t0 n))
  = CInt.range (f t0) (f (t0 + Z.of_nat n)%Z).
Proof.
  revert t0. induction n as [|n IH]; intros t0 Hmono.
  - simpl. rewrite Z.add_0_r. symmetry. apply range_empty. lia.
  - cbn [CInt.count_from map concat].
    rewrite IH by (intros t Ht; apply Hmono; lia).
    assert (Hchain : forall k : nat, (k <= n)%nat ->
              (f (t0 + 1) <= f (t0 + 1 + Z.of_nat k))%Z).
    { induction k as [|k IHk]; intros Hk.
      - rewrite Z.add_0_r. lia.
      - specialize (IHk ltac:(lia)).
        pose proof (Hmono (t0 + 1 + Z.of_nat k)%Z ltac:(lia)) as Hs.
        replace (t0 + 1 + Z.of_nat (S k))%Z with (t0 + 1 + Z.of_nat k + 1)%Z by lia.
        lia. }
    replace (t0 + Z.of_nat (S n))%Z with (t0 + 1 + Z.of_nat n)%Z by lia.
    symmetry. apply range_split. split.
    + apply Hmono. lia.
    + apply Hchain. lia.
Qed.

(** Row-major indices of a [width] x [rows] grid enumerate [0, width * rows). *)
Lemma grid_indices (width : Z) (rows : nat) (j0 : Z) :
  (0 <= width)%Z ->
  flat_map (fun j => map (fun i => (j * width + i)%Z) (CInt.range 0 width))
           (CInt.count_from j0 rows)
  = CInt.count_from (j0 * width) (Z.to_nat width * rows).
Proof.
  intros Hw. revert j0. induction rows as [|rows IH]; intros j0.
  - rewrite Nat.mul_0_r. reflexivity.
  - cbn [CInt.count_from flat_map]. rewrite IH.
    replace (Z.to_nat width * S rows)%nat
      with (Z.to_nat width + Z.to_nat width * rows)%nat by lia.
    rewrite count_from_app. f_equal.
    + unfold CInt.range. rewrite Z.sub_0_r.
      generalize (Z.to_nat width) as n. generalize (j0 * width)%Z as base.
      assert (G : forall (n : nat) (base lo : Z),
                 map (fun i => (base + i)%Z) (CInt.count_from lo n)
                 = CInt.count_from (base + lo) n).
      { induction n as [|n IHn]; intros base lo; simpl; [reflexivity|].
        rewrite IHn. do 2 f_equal. lia. }
      intros base n. rewrite G. now rewrite Z.add_0_r.
    + f_equal. lia.
Qed.

Lemma flat_map_ext_in {A B : Type} (f g : A -> list B) (l : list A) :
  (forall a, In a l -> f a = g a) -> flat_map f l = flat_map g l.
Proof.
  induction l as [|a l IH]; intros Hfg; simpl; [reflexivity|].
  rewrite Hfg by (now left). rewrite IH; [reflexivity|].
  intros b Hb. apply Hfg. now right.
Qed.

(** The events of a loop are the events of its iterations, in order. *)
Lemma for_each_events {E S F : Type} (proj : E -> F) (f : Z -> list F)
    (body : Z -> S -> list E * S) (xs : list Z) (s : S) :
  (forall x s0, In x xs -> map proj (fst (body x s0)) = f x) ->
  map proj (fst (for_each xs body s)) = flat_map f xs.
Proof.
  revert s. induction xs as [|x xs IH]; intros s Hbody; simpl; [reflexivity|].
  pose proof (Hbody x s (or_introl eq_refl)) as Hx.
  destruct (body x s) as [e1 s1].
  specialize (IH s1 (fun y s0 Hy => Hbody y s0 (or_intror Hy))).
  destruct (for_each xs body s1) as [e2 s2].
  cbn [fst] in *. now rewrite map_app, Hx, IH.
Qed.

(** Every event of a loop is an event of one of its iterations. *)
Lemma for_each_event_in {E S : Type} (body : Z -> S -> list E * S)
    (xs : list Z) (s : S) (e : E) :
  In e (fst (for_each xs body s)) ->
  exists x s0, In x xs /\ In e (fst (body x s0)).
Proof.
  revert s. induction xs as [|x xs IH]; intros s; simpl; [tauto|].
  destruct (body x s) as [e1 s1] eqn:Eb.
  destruct (for_each xs body s1) as [e2 s2] eqn:Ef.
  cbn [fst]. rewrite in_app_iff. intros [Hin|Hin].
  - exists x, s. split; [now left|]. now rewrite Eb.
  - destruct (IH s1) as (y & s0 & Hy & He); [now rewrite Ef|].
    exists y, s0. split; [now right | assumption].
Qed.

(* ------------------------------------------------------------------ *)
(** ** Writes to the framebuffer *)

Lemma set_nth_length (fb : list color) (n : nat) (v : color) :
  List.length (set_nth n fb v) = List.length fb.
Proof.
  revert n. induction fb as [|x fb IH]; intros [|n]; simpl; auto.
Qed.

Lemma store_length (fb : list color) (idx : Z) (v : color) :
  List.length (store fb idx v) = List.length fb.
Proof.
  unfold store. destruct (_ && _); [apply set_nth_length | reflexivity].
Qed.

Lemma set_nth_swap (fb : list color) (n m : nat) (a b : color) :
  n <> m -> set_nth n (set_nth m fb b) a = set_nth m (set_nth n fb a) b.
Proof.
  revert n m. induction fb as [|x fb IH]; intros [|n] [|m] Hnm; simpl;
    try reflexivity; try congruence.
  f_equal. apply IH. congruence.
Qed.

(** Writes to different indices commute. *)
Lemma store_swap (fb : list color) (i j : Z) (a b : color) :
  i <> j -> store (store fb j b) i a = store (store fb i a) j b.
Proof.
  intros Hij.
  assert (E : forall l idx v,
             store l idx v =
             if (0 <=? idx)%Z && (idx <? Z.of_nat (List.length l))%Z
             then set_nth (Z.to_nat idx) l v else l) by reflexivity.
  rewrite (E (store fb j b)), (E (store fb i a)), !store_length, !(E fb).
  destruct ((0 <=? i)%Z && (i <? Z.of_nat (List.length fb))%Z) eqn:Ei;
    destruct ((0 <=? j)%Z && (j <? Z.of_nat (List.length fb))%Z) eqn:Ej;
    try reflexivity.
  apply andb_true_iff in Ei as [Ei _]. apply andb_true_iff in Ej as [Ej _].
  apply Z.leb_le in Ei, Ej.
  apply set_nth_swap. lia.
Qed.

Lemma set_nth_middle (pre tl : list color) (x v : color) :
  set_nth (List.length pre) (pre ++ x :: tl) v = pre ++ v :: tl.
Proof.
  induction pre as [|p pre IH]; simpl; [reflexivity | now rewrite IH].
Qed.

(** Writing the indices [0, 1, ..., n-1] in order into a fresh vector of
    length [n] leaves the written values, in order. *)
Lemma apply_writes_in_order (k : nat) (pre : list color) (ws : list (Z * color)) :
  map fst ws = CInt.count_from (Z.of_nat (List.length pre)) k ->
  apply_writes (pre ++ repeat Vec3.zero k) ws = pre ++ map snd ws.
Proof.
  revert pre ws. induction k as [|k IH]; intros pre ws Hidx.
  - destruct ws; [reflexivity | discriminate].
  - destruct ws as [|[idx v] ws]; [discriminate|].
    cbn [map fst CInt.count_from] in Hidx. injection Hidx as Hi Hrest.
    cbn [apply_writes fold_left fst snd map repeat].
    assert (Hst : store (pre ++ Vec3.zero :: repeat Vec3.zero k) idx v
                  = (pre ++ [v]) ++ repeat Vec3.zero k).
    { unfold store. rewrite length_app. cbn [List.length].
      match goal with
      | |- (if ?b then _ else _) = _ =>
          replace b with true
            by (symmetry; apply andb_true_iff; split;
                [apply Z.leb_le | apply Z.ltb_lt]; lia)
      end.
      subst idx. rewrite Nat2Z.id, set_nth_middle, <- app_assoc. reflexivity. }
    rewrite Hst. fold (apply_writes ((pre ++ [v]) ++ repeat Vec3.zero k) ws).
    rewrite IH.
    + now rewrite <- app_assoc.
    + rewrite Hrest, length_app. cbn [List.length]. f_equal. lia.
Qed.

(** The order of writes to pairwise different indices does not matter. *)
Lemma apply_writes_permutation (ws ws' : list (Z * color)) :
  Permutation ws ws' ->
  NoDup (map fst ws) ->
  forall fb, apply_writes fb ws = apply_writes fb ws'.
Proof.
  induction 1 as [| w l l' Hp IH | a b l | l l' l'' Hp1 IH1 Hp2 IH2];
    intros Hnd fb.
  - reflexivity.
  - cbn [map] in Hnd. inversion Hnd; subst.
    unfold apply_writes in *. cbn [fold_left]. now apply IH.
  - unfold apply_writes. cbn [fold_left].
    cbn [map] in Hnd. inversion Hnd as [|? ? Hnotin _]; subst.
    rewrite store_swap; [reflexivity|].
    intros Heq. apply Hnotin. left. now symmetry.
  - rewrite IH1 by assumption. apply IH2.
    apply (Permutation_NoDup (Permutation_map fst Hp1) Hnd).
Qed.

Lemma concat_all_nil {A : Type} (ls : list (list A)) :
  Forall (fun l => l = []) ls -> concat ls = [].
Proof.
  induction 1 as [|l ls Hl _ IH]; simpl; [reflexivity | now rewrite Hl, IH].
Qed.

(** An interleaving holds the writes of all workers, each once. *)
Lemma interleaving_permutation {A : Type} (ls : list (list A)) (l : list A) :
  interleaving ls l -> Permutation (concat ls) l.
Proof.
  induction 1 as [ls Hnil | pre x l post rest _ IH].
  - now rewrite concat_all_nil.
  - rewrite concat_app in *. cbn [concat] in *.
    cbn [app].
    apply Permutation_sym, Permutation_cons_app, Permutation_sym.
    exact IH.
Qed.

Lemma interleaving_idle {A : Type} (ls : list (list A)) (l : list A) :
  interleaving ls l -> interleaving ([] :: ls) l.
Proof.
  induction 1 as [ls Hnil | pre x l post rest _ IH].
  - constructor. now constructor.
  - apply (interleaving_step ([] :: pre) x l post IH).
Qed.

(** Running the workers one after the other is one of the interleavings. *)
Lemma interleaving_sequential {A : Type} (ls : list (list A)) :
  interleaving ls (concat ls).
Proof.
  induction ls as [|l ls IH]; [constructor; constructor|].
  cbn [concat]. induction l as [|x l IHl]; cbn [app].
  - now apply interleaving_idle.
  - apply (interleaving_step [] x l ls IHl).
Qed.

(* ------------------------------------------------------------------ *)
(** ** The scheduler *)

Lemma flat_map_singleton {A B : Type} (f : A -> B) (l : list A) :
  flat_map (fun a => [f a]) l = map f l.
Proof. induction l as [|a l IH]; simpl; [reflexivity | now rewrite IH]. Qed.

Lemma concat_flat_map {A B C : Type} (f : B -> list C) (g : A -> list B)
    (l : list A) :
  concat (map (fun a => flat_map f (g a)) l) = flat_map f (concat (map g l)).
Proof.
  induction l as [|a l IH]; simpl; [reflexivity|].
  now rewrite flat_map_app, IH.
Qed.

Lemma nth_map_in_range {A B : Type} (f : A -> B) (l : list A) (n : nat)
    (d : B) (d' : A) :
  (n < List.length l)%nat -> nth n (map f l) d = f (nth n l d').
Proof.
  revert n. induction l as [|a l IH]; intros [|n] Hn; simpl in *;
    try lia; [reflexivity | apply IH; lia].
Qed.

(** Element [j * width + i] of what two nested loops emit is what the
    inner loop emits for [(i, j)]. *)
Lemma nth_grid {A : Type} (f : Z -> Z -> A) (width : Z) (rows : nat) (j0 : Z)
    (i j : Z) (d : A) :
  (0 <= i < width)%Z -> (j0 <= j < j0 + Z.of_nat rows)%Z ->
  nth (Z.to_nat ((j - j0) * width + i))
      (flat_map (fun j' => map (f j') (CInt.range 0 width)) (CInt.count_from j0 rows))
      d
  = f j i.
Proof.
  intros Hi. revert j0. induction rows as [|rows IH]; intros j0 Hj; [lia|].
  cbn [CInt.count_from flat_map].
  assert (Hlen : List.length (map (f j0) (CInt.range 0 width)) = Z.to_nat width).
  { rewrite length_map, range_length. f_equal. lia. }
  destruct (Z.eq_dec j j0) as [->|Hne].
  - rewrite app_nth1 by (rewrite Hlen; lia).
    replace ((j0 - j0) * width + i)%Z with i by lia.
    rewrite nth_indep with (d' := f j0 0%Z) by (rewrite Hlen; lia).
    rewrite map_nth. f_equal. unfold CInt.range.
    rewrite count_from_nth by lia. lia.
  - rewrite app_nth2 by (rewrite Hlen; nia).
    rewrite Hlen.
    replace (Z.to_nat ((j - j0) * width + i) - Z.to_nat width)%nat
      with (Z.to_nat ((j - (j0 + 1)) * width + i)) by nia.
    apply IH. lia.
Qed.

Section Scheduler.

Variable rng : Type.
Variable random_double : rng -> double * rng.
Variable random_in_unit_disk : rng -> vec3 * rng.

Local Abbreviation pixel_color' := (pixel_color random_double random_in_unit_disk).
Local Abbreviation sample_colors' := (sample_colors random_double random_in_unit_disk).
Local Abbreviation render_section' := (render_section random_double random_in_unit_disk).
Local Abbreviation worker_writes' := (worker_writes random_double random_in_unit_disk).

(** The sample loop adds up the colours of its samples. *)
Lemma pixel_color_sum (c : camera) (world : hittable rng) (i j : Z) (g : rng) :
  fst (pixel_color' c world i j g)
  = sum_colors (sample_colors' c world i j
                  (Z.to_nat (samples_per_pixel (config c))) g).
Proof.
  unfold pixel_color, for_loop, sum_colors, CInt.range.
  rewrite Z.sub_0_r.
  generalize (Z.to_nat (samples_per_pixel (config c))) as n.
  generalize 0%Z as lo. generalize (mkvec3 0 0 0)%float as acc.
  intros acc lo n. revert acc lo g.
  induction n as [|n IH]; intros acc lo g; [reflexivity|].
  cbn [CInt.count_from fold_left sample_colors snd fst].
  destruct (get_ray random_double random_in_unit_disk c i j g) as [r g1].
  destruct (ray_color r (max_depth (config c)) world g1) as [col g2].
  cbn [fold_left]. apply IH.
Qed.

Lemma sample_colors_length (c : camera) (world : hittable rng) (i j : Z)
    (n : nat) (g : rng) :
  List.length (sample_colors' c world i j n g) = n.
Proof.
  revert g. induction n as [|n IH]; intros g; [reflexivity|].
  cbn [sample_colors].
  destruct (get_ray random_double random_in_unit_disk c i j g) as [r g1].
  destruct (ray_color r (max_depth (config c)) world g1) as [col g2].
  cbn [List.length]. now rewrite IH.
Qed.

(** The indices a worker writes are those of its rows, in program order. *)
Lemma render_section_indices (c : camera) (world : hittable rng)
    (first last : Z) (g : rng) :
  map fst (fst (render_section' c world first last g))
  = section_indices c first last.
Proof.
  unfold render_section, section_indices.
  apply for_each_events. intros j g0 _.
  unfold row_indices.
  rewrite <- (flat_map_singleton (fun i => pixel_index c i j)).
  apply for_each_events. intros i g1 _.
  destruct (pixel_color' c world i j g1) as [pixel g2]. reflexivity.
Qed.

(** Every write of a worker stores, at the index of a pixel of one of its
    rows, the colour that the sample loop computed for that pixel. *)
Lemma render_section_write (c : camera) (world : hittable rng)
    (first last : Z) (g : rng) (idx : Z) (v : color) :
  In (idx, v) (fst (render_section' c world first last g)) ->
  exists i j g0,
    (first <= j < last)%Z /\ (0 <= i < image_width (config c))%Z
    /\ idx = pixel_index c i j
    /\ v = fst (pixel_color' c world i j g0).
Proof.
  unfold render_section. intros Hin.
  apply for_each_event_in in Hin as (j & gj & Hj & Hin).
  apply for_each_event_in in Hin as (i & gi & Hi & Hin).
  apply range_In in Hj, Hi.
  destruct (pixel_color' c world i j gi) as [pixel g2] eqn:E.
  cbn in Hin. destruct Hin as [[= <- <-]|[]].
  exists i, j, gi. rewrite E. repeat split; lia.
Qed.

(** Within a framebuffer that fits an [int], the index arithmetic does not
    wrap. *)
Lemma pixel_index_value (c : camera) (rows i j : Z) :
  (0 <= i < image_width (config c))%Z -> (0 <= j < rows)%Z ->
  (image_width (config c) * rows <= CInt.INT_MAX)%Z ->
  pixel_index c i j = (j * image_width (config c) + i)%Z.
Proof.
  intros Hi Hj Hfit. unfold pixel_index, CInt.add, CInt.mul.
  rewrite (@wrap_in_range (j * _)%Z).
  - apply wrap_in_range.
    unfold CInt.in_range, CInt.INT_MIN, CInt.INT_MAX in *. nia.
  - unfold CInt.in_range, CInt.INT_MIN, CInt.INT_MAX in *. nia.
Qed.

(** The indices of whole rows [0, rows) are [0, width * rows), in order. *)
Lemma section_indices_all (c : camera) (rows : Z) :
  (0 <= image_width (config c))%Z -> (0 <= rows)%Z ->
  (image_width (config c) * rows <= CInt.INT_MAX)%Z ->
  section_indices c 0 rows
  = CInt.count_from 0 (Z.to_nat (image_width (config c) * rows)).
Proof.
  intros Hw Hr Hfit. unfold section_indices, row_indices.
  rewrite flat_map_ext_in
    with (g := fun j => map (fun i => (j * image_width (config c) + i)%Z)
                            (CInt.range 0 (image_width (config c)))).
  - unfold CInt.range at 2. rewrite grid_indices by assumption.
    rewrite Z.sub_0_r, Z2Nat.inj_mul by lia. reflexivity.
  - intros j Hj. apply range_In in Hj.
    apply map_ext_in. intros i Hi. apply range_In in Hi.
    now apply pixel_index_value with (rows := rows).
Qed.

(** Membership in the indices of a block of rows. *)
Lemma section_indices_In (c : camera) (rows first last idx : Z) :
  (0 < image_width (config c))%Z -> (0 <= first)%Z -> (last <= rows)%Z ->
  (image_width (config c) * rows <= CInt.INT_MAX)%Z ->
  In idx (section_indices c first last)
  <-> (0 <= idx)%Z /\ (first <= idx / image_width (config c) < last)%Z.
Proof.
  intros Hw Hf Hl Hfit. unfold section_indices, row_indices.
  rewrite in_flat_map. split.
  - intros (j & Hj & Hin). apply range_In in Hj.
    apply in_map_iff in Hin as (i & Hidx & Hi). apply range_In in Hi.
    rewrite (@pixel_index_value c rows i j) in Hidx by lia. subst idx.
    rewrite Z.div_add_l, Z.div_small by lia. nia.
  - intros (Hidx & Hrow).
    pose proof (Z.div_mod idx (image_width (config c)) ltac:(lia)) as D.
    pose proof (Z.mod_pos_bound idx (image_width (config c)) Hw) as B.
    exists (idx / image_width (config c))%Z. split; [now apply range_In|].
    apply in_map_iff. exists (idx mod image_width (config c))%Z.
    split; [|apply range_In; lia].
    rewrite (@pixel_index_value c rows) by lia. lia.
Qed.

Section Workers.

(** An initialised camera, a scene, the streams and the worker count. *)
Variable c : camera.
Variable world : hittable rng.
Variable stream : Z -> rng.
Variable W : Z.

Let H := image_height (geo c).
Let width := image_width (config c).

Hypothesis W_int : (1 <= W <= CInt.INT_MAX)%Z.
Hypothesis H_int : (0 <= H <= CInt.INT_MAX)%Z.
Hypothesis width_nonneg : (0 <= width)%Z.
Hypothesis fits : (width * H <= CInt.INT_MAX)%Z.

Lemma worker_writes_length :
  List.length (worker_writes' c world stream W (H / W)) = Z.to_nat W.
Proof.
  unfold worker_writes. rewrite length_map, range_length. f_equal. lia.
Qed.

(** Worker [t] writes the indices of the rows between its boundaries. *)
Lemma worker_indices (t : Z) :
  (0 <= t < W)%Z ->
  map fst (nth (Z.to_nat t) (worker_writes' c world stream W (H / W)) [])
  = section_indices c (boundary H W t) (boundary H W (t + 1)).
Proof.
  intros Ht. unfold worker_writes.
  rewrite nth_map_in_range with (d' := 0%Z) by (rewrite range_length; lia).
  unfold CInt.range.
  rewrite count_from_nth by lia. rewrite Z.add_0_l, Z2Nat.id by lia.
  rewrite render_section_indices.
  fold H. now rewrite (start_row_value W_int H_int Ht), (end_row_value W_int H_int Ht).
Qed.

(** All workers together write the indices [0, width * H), each once. *)
Lemma all_worker_indices :
  map fst (concat (worker_writes' c world stream W (H / W)))
  = CInt.count_from 0 (Z.to_nat (width * H)).
Proof.
  rewrite concat_map. unfold worker_writes. rewrite map_map.
  rewrite map_ext_in
    with (g := fun t => flat_map (row_indices c)
                          (CInt.range (boundary H W t) (boundary H W (t + 1)))).
  - rewrite concat_flat_map.
    change (CInt.range 0 W) with (CInt.count_from 0 (Z.to_nat (W - 0))).
    rewrite (chained_ranges (boundary H W)).
    + rewrite Z.sub_0_r, Z2Nat.id, Z.add_0_l by lia.
      rewrite (boundary_first W_int H_int), boundary_last.
      now apply section_indices_all.
    + intros t Ht. apply (boundary_mono W_int H_int); lia.
  - intros t Ht. apply range_In in Ht.
    rewrite render_section_indices. fold H.
    now rewrite (start_row_value W_int H_int Ht), (end_row_value W_int H_int Ht).
Qed.

Lemma row_ranges_nth (t : Z) :
  (0 <= t < W)%Z ->
  range_of (map (fun t => (boundary H W t, boundary H W (t + 1))) (CInt.range 0 W)) t
  = (boundary H W t, boundary H W (t + 1)).
Proof.
  intros Ht. unfold range_of.
  rewrite nth_map_in_range with (d' := 0%Z) by (rewrite range_length; lia).
  unfold CInt.range. rewrite count_from_nth by lia.
  now rewrite Z.add_0_l, Z2Nat.id by lia.
Qed.

(** The partition of the rows, for every worker count from 1 upward. *)
Lemma partition_of_rows :
  exists ranges,
    row_ranges H W = Some ranges
    /\ List.length ranges = Z.to_nat W
    /\ (forall t, (0 <= t < W)%Z ->
          range_of ranges t = (boundary H W t, boundary H W (t + 1)))
    /\ contiguous H ranges
    /\ covers_once H ranges
    /\ rows_in_order H ranges.
Proof.
  eexists. split; [apply (row_ranges_value W_int H_int)|].
  assert (Hlen : List.length
            (map (fun t => (boundary H W t, boundary H W (t + 1))) (CInt.range 0 W))
            = Z.to_nat W).
  { rewrite length_map, range_length. f_equal. lia. }
  split; [exact Hlen|]. split; [exact row_ranges_nth|].
  split; [|split].
  - unfold contiguous. rewrite Hlen, Z2Nat.id by lia. cbv zeta.
    split; [|split; [|split]].
    + rewrite row_ranges_nth by lia. apply (boundary_first W_int H_int).
    + intros t Ht. rewrite row_ranges_nth by lia.
      apply (boundary_mono W_int H_int); lia.
    + intros t Ht0 Ht1. now rewrite !row_ranges_nth by lia.
    + rewrite row_ranges_nth by lia. cbn [snd].
      replace (W - 1 + 1)%Z with W by lia. apply boundary_last.
  - intros row Hrow. rewrite Hlen, Z2Nat.id by lia.
    destruct (row_owner W_int H_int Hrow) as (t & (Ht & Hin) & Huniq).
    exists t. split.
    + split; [assumption|]. now rewrite row_ranges_nth.
    + intros t' (Ht' & Hin'). apply Huniq. split; [assumption|].
      now rewrite row_ranges_nth in Hin'.
  - unfold rows_in_order. rewrite map_map. cbn [fst snd].
    change (CInt.range 0 W) with (CInt.count_from 0 (Z.to_nat (W - 0))).
    rewrite (chained_ranges (boundary H W)).
    + rewrite Z.sub_0_r, Z2Nat.id, Z.add_0_l by lia.
      now rewrite (boundary_first W_int H_int), boundary_last.
    + intros t Ht. apply (boundary_mono W_int H_int); lia.
Qed.

(** One writer per framebuffer index, for every worker count from 1
    upward. *)
Lemma one_writer_per_index :
  single_writer (worker_writes' c world stream W (H / W)) (width * H).
Proof.
  intros idx Hidx. split.
  - rewrite worker_writes_length, Z2Nat.id by lia.
    assert (Hw : (0 < width)%Z) by nia.
    assert (Hrow : (0 <= idx / width < H)%Z).
    { split; [apply Z.div_pos; lia | apply Z.div_lt_upper_bound; lia]. }
    assert (Hmem : forall t, (0 <= t < W)%Z ->
              In idx (map fst (nth (Z.to_nat t)
                                 (worker_writes' c world stream W (H / W)) []))
              <-> (boundary H W t <= idx / width < boundary H W (t + 1))%Z).
    { intros t Ht. rewrite worker_indices by assumption.
      rewrite (@section_indices_In c H); fold width; try assumption.
      - intuition lia.
      - apply (boundary_nonneg W_int H_int). lia.
      - apply (boundary_nonneg W_int H_int). lia. }
    destruct (row_owner W_int H_int Hrow) as (t & (Ht & Hin) & Huniq).
    exists t. split.
    + split; [assumption|]. now apply Hmem.
    + intros t' (Ht' & Hin'). apply Huniq. split; [assumption|].
      now apply Hmem.
  - rewrite all_worker_indices.
    apply NoDup_count_occ'; [apply count_from_NoDup|].
    apply count_from_In. lia.
Qed.

End Workers.

(** C1. For an image of height H and a worker count W from 1 to H, the
    row ranges that the thread loop assigns lie end to end and do not
    overlap, their rows taken together are exactly the rows of [0, H),
    each once (the last range taking the remainder), worker [t] writes the
    row-major indices [row * width + column] of its rows, and so every
    index of the framebuffer is written by exactly one worker, once. *)
Theorem rows_partitioned_up_to_height (c : camera) (world : hittable rng)
    (stream : Z -> rng) (W : Z) :
  let H := image_height (geo c) in
  let width := image_width (config c) in
  (1 <= W <= H)%Z -> (H <= CInt.INT_MAX)%Z ->
  (0 <= width)%Z -> (width * H <= CInt.INT_MAX)%Z ->
  exists ranges rows_per_thread,
    row_ranges H W = Some ranges
    /\ CInt.div H W = Some rows_per_thread
    /\ rows_per_thread = (H / W)%Z
    /\ List.length ranges = Z.to_nat W
    /\ (forall t, (0 <= t < W - 1)%Z ->
          range_of ranges t
          = (t * rows_per_thread, t * rows_per_thread + rows_per_thread)%Z)
    /\ range_of ranges (W - 1) = ((W - 1) * rows_per_thread, H)%Z
    /\ contiguous H ranges
    /\ covers_once H ranges
    /\ rows_in_order H ranges
    /\ (forall i j, (0 <= i < width)%Z -> (0 <= j < H)%Z ->
          pixel_index c i j = (j * width + i)%Z)
    /\ (forall t, (0 <= t < W)%Z ->
          map fst (nth (Z.to_nat t)
                     (worker_writes' c world stream W rows_per_thread) [])
          = section_indices c (fst (range_of ranges t)) (snd (range_of ranges t)))
    /\ single_writer (worker_writes' c world stream W rows_per_thread) (width * H).
Proof.
  intros H width HW HH Hwidth Hfit.
  assert (W_int : (1 <= W <= CInt.INT_MAX)%Z) by lia.
  assert (H_int : (0 <= H <= CInt.INT_MAX)%Z) by lia.
  destruct (@partition_of_rows c W W_int H_int)
    as (ranges & Hr & Hlen & Hnth & Hc & Hcov & Hord).
  exists ranges, (H / W)%Z.
  split; [exact Hr|]. split; [apply (rows_per_thread_value W_int H_int)|].
  split; [reflexivity|]. split; [exact Hlen|].
  split; [|split].
  { intros t Ht. rewrite Hnth by lia. unfold boundary. fold H.
    destruct (t <? W)%Z eqn:E1; [|apply Z.ltb_ge in E1; lia].
    destruct (t + 1 <? W)%Z eqn:E2; [|apply Z.ltb_ge in E2; lia].
    f_equal. lia. }
  { rewrite Hnth by lia. unfold boundary. fold H.
    destruct (W - 1 <? W)%Z eqn:E1; [|apply Z.ltb_ge in E1; lia].
    destruct (W - 1 + 1 <? W)%Z eqn:E2; [apply Z.ltb_lt in E2; lia|].
    reflexivity. }
  split; [exact Hc|]. split; [exact Hcov|].
  split; [exact Hord|]. split; [|split].
  - intros i j Hi Hj. now apply pixel_index_value with (rows := H).
  - intros t Ht. rewrite Hnth by assumption. cbn [fst snd].
    now apply worker_indices.
  - now apply one_writer_per_index.
Qed.

(** C10. With more workers than rows, [rows_per_thread] is 0, every
    worker but the last gets the empty range [0, 0) and the last gets
    [0, H); the rows are still covered exactly once and every framebuffer
    index still has exactly one writer. *)
Theorem rows_partitioned_beyond_height (c : camera) (world : hittable rng)
    (stream : Z -> rng) (W : Z) :
  let H := image_height (geo c) in
  let width := image_width (config c) in
  (0 <= H < W)%Z -> (W <= CInt.INT_MAX)%Z ->
  (0 <= width)%Z -> (width * H <= CInt.INT_MAX)%Z ->
  exists ranges,
    row_ranges H W = Some ranges
    /\ CInt.div H W = Some 0%Z
    /\ List.length ranges = Z.to_nat W
    /\ (forall t, (0 <= t < W - 1)%Z -> range_of ranges t = (0, 0)%Z)
    /\ range_of ranges (W - 1) = (0, H)%Z
    /\ contiguous H ranges
    /\ covers_once H ranges
    /\ rows_in_order H ranges
    /\ single_writer (worker_writes' c world stream W 0) (width * H).
Proof.
  intros H width HW HWmax Hwidth Hfit.
  assert (W_int : (1 <= W <= CInt.INT_MAX)%Z) by lia.
  assert (H_int : (0 <= H <= CInt.INT_MAX)%Z) by lia.
  assert (Hzero : (H / W = 0)%Z) by (apply Z.div_small; lia).
  destruct (@partition_of_rows c W W_int H_int)
    as (ranges & Hr & Hlen & Hnth & Hc & Hcov & Hord).
  exists ranges.
  split; [exact Hr|].
  split; [rewrite <- Hzero; apply (rows_per_thread_value W_int H_int)|].
  split; [exact Hlen|]. split; [|split].
  - intros t Ht. rewrite Hnth by lia. unfold boundary. fold H. rewrite Hzero.
    destruct (t <? W)%Z eqn:E1; [|apply Z.ltb_ge in E1; lia].
    destruct (t + 1 <? W)%Z eqn:E2; [|apply Z.ltb_ge in E2; lia].
    f_equal; lia.
  - rewrite Hnth by lia. unfold boundary. fold H. rewrite Hzero.
    destruct (W - 1 <? W)%Z eqn:E1; [|apply Z.ltb_ge in E1; lia].
    destruct (W - 1 + 1 <? W)%Z eqn:E2; [apply Z.ltb_lt in E2; lia|].
    f_equal; lia.
  - split; [exact Hc|]. split; [exact Hcov|]. split; [exact Hord|].
    rewrite <- Hzero. now apply one_writer_per_index.
Qed.

(** *** A whole call of [render] *)

Section Render.

Variable tan : double -> double.
Variable degrees_to_radians : double -> double.

Local Abbreviation render' :=
  (render random_double random_in_unit_disk tan degrees_to_radians).

Lemma to_int_in_range (d : double) (k : Z) :
  CDouble.to_int d = Some k -> CInt.in_range k.
Proof.
  unfold CDouble.to_int, CInt.in_range.
  destruct (Prim2SF d) as [s|s| |s m e]; try discriminate.
  - intros [= <-]. unfold CInt.INT_MIN, CInt.INT_MAX. lia.
  - cbv zeta.
    destruct ((CInt.INT_MIN <=? _)%Z && (_ <=? CInt.INT_MAX)%Z) eqn:E;
      [|discriminate].
    intros [= <-]. apply andb_true_iff in E as [E1 E2].
    apply Z.leb_le in E1, E2. lia.
Qed.

(** What [initialize] derives besides the geometry of the viewport. *)
Lemma initialize_derived (c c1 : camera) :
  initialize tan degrees_to_radians c = Some c1 ->
  config c1 = config c
  /\ (1 <= image_height (geo c1) <= CInt.INT_MAX)%Z
  /\ pixel_samples_scale (geo c1)
     = (1 / CDouble.of_int (samples_per_pixel (config c)))%float.
Proof.
  unfold initialize.
  destruct (CDouble.to_int _) as [h0|] eqn:E; [|discriminate].
  apply to_int_in_range in E. unfold CInt.in_range in E.
  intros [= <-]. cbn. repeat split;
    destruct (h0 <? 1)%Z eqn:E1;
    try (apply Z.ltb_lt in E1); try (apply Z.ltb_ge in E1);
    unfold CInt.INT_MAX in *; lia.
Qed.

(** [render] on a camera that initialises, with a reported concurrency of
    at least one: the workers, the framebuffer and the emission. *)
Lemma render_value (c c1 : camera) (hc : Z) (world : hittable rng)
    (stream : Z -> rng) :
  initialize tan degrees_to_radians c = Some c1 ->
  (1 <= hc <= CInt.INT_MAX)%Z ->
  let c2 := mkcamera (config c1) (geo c1) hc in
  let fb := apply_writes (fresh_framebuffer c1)
              (concat (worker_writes' c2 world stream hc
                         (image_height (geo c1) / hc))) in
  render' c hc world stream
  = Some (mkcamera (config c1) (geo c1)
            (for_loop 0 hc (fun _ n => CInt.sub n 1) hc),
          mkoutput (image_width (config c1)) (image_height (geo c1))
                   fb (emit c2 fb)).
Proof.
  intros Hinit Hhc. cbv zeta. unfold render. rewrite Hinit.
  destruct (@initialize_derived c c1 Hinit) as (_ & Hh & _).
  assert (Hwrap : CInt.wrap hc = hc).
  { apply wrap_in_range. unfold CInt.in_range, CInt.INT_MIN, CInt.INT_MAX in *. lia. }
  rewrite Hwrap, (@rows_per_thread_value (image_height (geo c1)) hc) by lia.
  reflexivity.
Qed.

(** The framebuffer after the join holds the workers' values in the
    order of the indices. *)
Lemma framebuffer_value (c : camera) (world : hittable rng) (stream : Z -> rng)
    (W : Z) :
  (1 <= W <= CInt.INT_MAX)%Z ->
  (0 <= image_height (geo c) <= CInt.INT_MAX)%Z ->
  (0 <= image_width (config c))%Z ->
  (image_width (config c) * image_height (geo c) <= CInt.INT_MAX)%Z ->
  apply_writes (fresh_framebuffer c)
    (concat (worker_writes' c world stream W (image_height (geo c) / W)))
  = map snd (concat (worker_writes' c world stream W (image_height (geo c) / W))).
Proof.
  intros HW HH Hw Hfit. unfold fresh_framebuffer, CInt.mul.
  rewrite wrap_in_range
    by (unfold CInt.in_range, CInt.INT_MIN, CInt.INT_MAX in *; nia).
  apply (@apply_writes_in_order _ []).
  now apply all_worker_indices.
Qed.

(** The samples of a pixel depend on the public members and the derived
    geometry only, not on the progress counter. *)
Lemma sample_colors_counter (cfg : camera_config) (gm : derived_geometry)
    (n m : Z) (world : hittable rng) (i j : Z) (k : nat) (g : rng) :
  sample_colors' (mkcamera cfg gm n) world i j k g
  = sample_colors' (mkcamera cfg gm m) world i j k g.
Proof.
  revert g. induction k as [|k IH]; intros g; [reflexivity|].
  cbn [sample_colors].
  change (get_ray random_double random_in_unit_disk (mkcamera cfg gm n) i j g)
    with (get_ray random_double random_in_unit_disk (mkcamera cfg gm m) i j g).
  destruct (get_ray random_double random_in_unit_disk (mkcamera cfg gm m) i j g)
    as [r g1].
  cbn [config max_depth].
  destruct (ray_color r (max_depth cfg) world g1) as [col g2].
  now rewrite IH.
Qed.

(** The write that the workers perform at a given index stores the sum of
    the samples of the pixel at that index. *)
Lemma write_at_index (c : camera) (world : hittable rng) (stream : Z -> rng)
    (W i j : Z) :
  let H := image_height (geo c) in
  let width := image_width (config c) in
  let ws := concat (worker_writes' c world stream W (H / W)) in
  (1 <= W <= CInt.INT_MAX)%Z -> (0 <= H <= CInt.INT_MAX)%Z ->
  (width * H <= CInt.INT_MAX)%Z ->
  (0 <= i < width)%Z -> (0 <= j < H)%Z ->
  exists g,
    nth (Z.to_nat (j * width + i)) (map snd ws) Vec3.zero
    = fst (pixel_color' c world i j g).
Proof.
  intros H width ws HW HH Hfit Hi Hj.
  assert (Hidx : map fst ws = CInt.count_from 0 (Z.to_nat (width * H)))
    by (apply all_worker_indices; lia).
  assert (Hk : (0 <= j * width + i < width * H)%Z) by nia.
  assert (Hlen : List.length ws = Z.to_nat (width * H))
    by (rewrite <- (length_map fst), Hidx; apply count_from_length).
  change Vec3.zero with (snd (0%Z, Vec3.zero)). rewrite map_nth.
  set (k := Z.to_nat (j * width + i)).
  assert (Hin : In (nth k ws (0%Z, Vec3.zero)) ws) by (apply nth_In; lia).
  assert (Hfst : fst (nth k ws (0%Z, Vec3.zero)) = (j * width + i)%Z).
  { change 0%Z with (fst (0%Z, Vec3.zero)) at 1. rewrite <- map_nth, Hidx.
    rewrite count_from_nth by lia. unfold k. lia. }
  destruct (nth k ws (0%Z, Vec3.zero)) as [idx v]. cbn [fst snd] in *.
  apply in_concat in Hin as (l & Hl & Hin).
  unfold worker_writes in Hl. apply in_map_iff in Hl as (t & <- & Ht).
  apply range_In in Ht.
  apply render_section_write in Hin as (i' & j' & g0 & Hj' & Hi' & Hidx' & Hv).
  fold H in Hj'. fold width in Hi'.
  rewrite (start_row_value HW HH Ht), (end_row_value HW HH Ht) in Hj'.
  pose proof (@boundary_nonneg H W HW HH t ltac:(lia)) as B0.
  pose proof (@boundary_nonneg H W HW HH (t + 1) ltac:(lia)) as B1.
  rewrite (@pixel_index_value c H i' j') in Hidx' by (fold width; lia).
  fold width in Hidx'.
  assert (Hsame : (j' * width + i' = j * width + i)%Z) by congruence.
  assert (j' = j).
  { destruct (Z.lt_trichotomy j j') as [Hlt|[Heq|Hgt]]; [|now symmetry|].
    - assert (j * width + width <= j' * width)%Z by nia. lia.
    - assert (j' * width + width <= j * width)%Z by nia. lia. }
  subst j'. assert (i' = i) by lia. subst i'.
  exists g0. exact Hv.
Qed.

(** C5. After all workers have finished, the framebuffer entry at index
    j * width + i is the sum (not the average) of the colours of the
    samples_per_pixel samples of pixel (i, j), and the colour handed to
    emission for that pixel is that sum scaled by
    pixel_samples_scale = 1 / samples_per_pixel. *)
Theorem framebuffer_holds_sums (c c1 : camera) (hc : Z) (world : hittable rng)
    (stream : Z -> rng) :
  let H := image_height (geo c1) in
  let width := image_width (config c) in
  let spp := samples_per_pixel (config c) in
  initialize tan degrees_to_radians c = Some c1 ->
  (1 <= hc <= CInt.INT_MAX)%Z ->
  (0 <= width)%Z -> (width * H <= CInt.INT_MAX)%Z ->
  exists c' out,
    render' c hc world stream = Some (c', out)
    /\ Z.of_nat (List.length (framebuffer out)) = (width * H)%Z
    /\ forall i j, (0 <= i < width)%Z -> (0 <= j < H)%Z ->
         (exists g,
             load (framebuffer out) (j * width + i)
             = sum_colors (sample_colors' c1 world i j (Z.to_nat spp) g)
             /\ List.length (sample_colors' c1 world i j (Z.to_nat spp) g)
                = Z.to_nat spp)
         /\ nth (Z.to_nat (j * width + i)) (emitted out) Vec3.zero
            = Vec3.scale (1 / CDouble.of_int spp)%float
                         (load (framebuffer out) (j * width + i)).
Proof.
  intros H width spp Hinit Hhc Hw Hfit.
  destruct (@initialize_derived c c1 Hinit) as (Hcfg & Hh & Hscale).
  rewrite (@render_value c c1 hc world stream Hinit Hhc).
  subst H width spp. rewrite <- Hcfg in *. clear Hcfg Hinit c.
  destruct c1 as [cfg gm sr]. cbn [config geo] in *.
  eexists. eexists. split; [reflexivity|]. cbn [framebuffer emitted].
  assert (HH : (0 <= image_height gm <= CInt.INT_MAX)%Z) by lia.
  pose proof (@framebuffer_value (mkcamera cfg gm hc) world stream hc
                Hhc HH Hw Hfit) as Hfb.
  pose proof (@all_worker_indices (mkcamera cfg gm hc) world stream hc
                Hhc HH Hw Hfit) as Hidx.
  cbn [config geo] in Hfb, Hidx.
  change (fresh_framebuffer (mkcamera cfg gm sr))
    with (fresh_framebuffer (mkcamera cfg gm hc)).
  rewrite Hfb. clear Hfb.
  split.
  - rewrite length_map, <- (length_map fst), Hidx, count_from_length. nia.
  - intros i j Hi Hj. split.
    + destruct (@write_at_index (mkcamera cfg gm hc) world stream hc i j
                  Hhc HH Hfit Hi Hj) as (g & Hg).
      cbv zeta in Hg. cbn [config geo] in Hg.
      exists g. split.
      * unfold load. rewrite Hg, pixel_color_sum. cbn [config].
        now rewrite (sample_colors_counter cfg gm hc sr).
      * apply sample_colors_length.
    + unfold emit. cbn [config geo]. rewrite <- Hscale.
      change (CInt.range 0 (image_height gm))
        with (CInt.count_from 0 (Z.to_nat (image_height gm - 0))).
      replace (j * image_width cfg + i)%Z with ((j - 0) * image_width cfg + i)%Z
        at 1 by lia.
      rewrite (nth_grid
                 (fun j' i' => Vec3.scale (pixel_samples_scale gm)
                                 (load _ (pixel_index (mkcamera cfg gm hc) i' j'))))
        by lia.
      rewrite (@pixel_index_value (mkcamera cfg gm hc) (image_height gm))
        by (cbn [config geo]; lia).
      reflexivity.
Qed.

(** X1. However the writes of the workers interleave, the framebuffer
    after the join is the one that [render] computes: the schedule of the
    threads cannot change the image. *)
Lemma render_any_interleaving (c c1 : camera) (hc : Z) (world : hittable rng)
    (stream : Z -> rng) (ws : list (Z * color)) :
  initialize tan degrees_to_radians c = Some c1 ->
  (1 <= hc <= CInt.INT_MAX)%Z ->
  (0 <= image_width (config c1))%Z ->
  (image_width (config c1) * image_height (geo c1) <= CInt.INT_MAX)%Z ->
  interleaving
    (worker_writes' (mkcamera (config c1) (geo c1) hc) world stream hc
       (image_height (geo c1) / hc)) ws ->
  exists c' out,
    render' c hc world stream = Some (c', out)
    /\ apply_writes (fresh_framebuffer c1) ws = framebuffer out.
Proof.
  intros Hinit Hhc Hw Hfit Hws.
  destruct (@initialize_derived c c1 Hinit) as (_ & Hh & _).
  rewrite (@render_value c c1 hc world stream Hinit Hhc).
  eexists. eexists. split; [reflexivity|]. cbn [framebuffer].
  symmetry. apply apply_writes_permutation.
  - now apply interleaving_permutation.
  - pose proof (@all_worker_indices (mkcamera (config c1) (geo c1) hc) world
                  stream hc Hhc ltac:(cbn [geo]; lia) Hw Hfit) as Hidx.
    cbn [config geo] in Hidx. rewrite Hidx. apply count_from_NoDup.
Qed.

(** [render] reads the public members only: whatever the private members
    hold when it is called, [initialize] and the thread loop overwrite
    them. *)
Lemma render_reads_config (c1 c2 : camera) (hc : Z) (world : hittable rng)
    (stream : Z -> rng) :
  config c1 = config c2 ->
  render' c1 hc world stream = render' c2 hc world stream.
Proof.
  intros Hcfg. unfold render, initialize. rewrite Hcfg.
  destruct (CDouble.to_int _) as [h0|]; reflexivity.
Qed.

Lemma render_keeps_config (c c' : camera) (out : render_output) (hc : Z)
    (world : hittable rng) (stream : Z -> rng) :
  render' c hc world stream = Some (c', out) -> config c' = config c.
Proof.
  unfold render.
  destruct (initialize tan degrees_to_radians c) as [c1|] eqn:Hinit;
    [|discriminate].
  destruct (CInt.div _ _) as [rows_per_thread|]; [|discriminate].
  intros [= <- _]. cbn [config].
  now destruct (@initialize_config tan degrees_to_radians c c1 Hinit).
Qed.

(** C9. Two calls of [render] with the same configuration, the same
    scene, the same reported concurrency and the same random streams give
    the same result, framebuffer included, whatever the private members of
    the camera held before each call; in particular a second call on the
    camera that the first call left behind reproduces the first. *)
Theorem render_reproducible (c1 c2 : camera) (hc : Z) (world : hittable rng)
    (stream : Z -> rng) :
  config c1 = config c2 ->
  render' c1 hc world stream = render' c2 hc world stream
  /\ (forall c' out,
        render' c1 hc world stream = Some (c', out) ->
        render' c' hc world stream = Some (c', out)
        /\ option_map (fun r => framebuffer (snd r)) (render' c2 hc world stream)
           = Some (framebuffer out)).
Proof.
  intros Hcfg. split; [now apply render_reads_config|].
  intros c' out Hrun. split.
  - rewrite <- Hrun. apply render_reads_config.
    apply (@render_keeps_config c1 c' out hc world stream Hrun).
  - rewrite <- (@render_reads_config c1 c2 hc world stream Hcfg), Hrun.
    reflexivity.
Qed.

(** C6, as the code has it. When the platform reports a hardware
    concurrency of 0, [render] does not fall back to one worker: the
    thread count is 0 and [image_height / thread_count] divides by zero,
    so the call has no defined result. *)
Theorem render_without_reported_concurrency (c : camera) (world : hittable rng)
    (stream : Z -> rng) :
  render' c 0 world stream = None
  /\ forall H, CInt.div H (CInt.wrap 0) = None.
Proof.
  split; [|reflexivity].
  unfold render. destruct (initialize tan degrees_to_radians c); reflexivity.
Qed.

End Render.

End Scheduler.

(* ------------------------------------------------------------------ *)
(** ** The scheduler on the small camera *)

Lemma ready_camera_size :
  image_height (geo Demo.ready_camera) = 2%Z
  /\ image_width (config Demo.ready_camera) = 4%Z.
Proof. split; vm_compute; reflexivity. Qed.

Ltac ready_camera_bounds :=
  pose proof (proj1 ready_camera_size); pose proof (proj2 ready_camera_size);
  unfold CInt.INT_MAX; nia.

Lemma rows_partitioned_up_to_height_witness :
  (1 <= 2 <= image_height (geo Demo.ready_camera))%Z
  /\ exists ranges rows_per_thread,
       row_ranges (image_height (geo Demo.ready_camera)) 2 = Some ranges
       /\ CInt.div (image_height (geo Demo.ready_camera)) 2 = Some rows_per_thread
       /\ rows_per_thread = (image_height (geo Demo.ready_camera) / 2)%Z
       /\ List.length ranges = Z.to_nat 2
       /\ (forall t, (0 <= t < 2 - 1)%Z ->
             range_of ranges t
             = (t * rows_per_thread, t * rows_per_thread + rows_per_thread)%Z)
       /\ range_of ranges (2 - 1)
          = ((2 - 1) * rows_per_thread, image_height (geo Demo.ready_camera))%Z
       /\ contiguous (image_height (geo Demo.ready_camera)) ranges
       /\ covers_once (image_height (geo Demo.ready_camera)) ranges
       /\ rows_in_order (image_height (geo Demo.ready_camera)) ranges
       /\ (forall i j,
             (0 <= i < image_width (config Demo.ready_camera))%Z ->
             (0 <= j < image_height (geo Demo.ready_camera))%Z ->
             pixel_index Demo.ready_camera i j
             = (j * image_width (config Demo.ready_camera) + i)%Z)
       /\ (forall t, (0 <= t < 2)%Z ->
             map fst (nth (Z.to_nat t)
                        (worker_writes Demo.random_double Demo.random_in_unit_disk
                           Demo.ready_camera (Demo.floor_of Demo.grey) Demo.stream
                           2 rows_per_thread) [])
             = section_indices Demo.ready_camera
                 (fst (range_of ranges t)) (snd (range_of ranges t)))
       /\ single_writer
            (worker_writes Demo.random_double Demo.random_in_unit_disk
               Demo.ready_camera (Demo.floor_of Demo.grey) Demo.stream
               2 rows_per_thread)
            (image_width (config Demo.ready_camera)
             * image_height (geo Demo.ready_camera)).
Proof.
  split; [ready_camera_bounds|].
  apply (@rows_partitioned_up_to_height Demo.rng Demo.random_double
           Demo.random_in_unit_disk Demo.ready_camera (Demo.floor_of Demo.grey)
           Demo.stream 2); ready_camera_bounds.
Defined.

Lemma rows_partitioned_beyond_height_witness :
  (0 <= image_height (geo Demo.ready_camera) < 5)%Z
  /\ exists ranges,
       row_ranges (image_height (geo Demo.ready_camera)) 5 = Some ranges
       /\ CInt.div (image_height (geo Demo.ready_camera)) 5 = Some 0%Z
       /\ List.length ranges = Z.to_nat 5
       /\ (forall t, (0 <= t < 5 - 1)%Z -> range_of ranges t = (0, 0)%Z)
       /\ range_of ranges (5 - 1)
          = (0, image_height (geo Demo.ready_camera))%Z
       /\ contiguous (image_height (geo Demo.ready_camera)) ranges
       /\ covers_once (image_height (geo Demo.ready_camera)) ranges
       /\ rows_in_order (image_height (geo Demo.ready_camera)) ranges
       /\ single_writer
            (worker_writes Demo.random_double Demo.random_in_unit_disk
               Demo.ready_camera (Demo.floor_of Demo.grey) Demo.stream 5 0)
            (image_width (config Demo.ready_camera)
             * image_height (geo Demo.ready_camera)).
Proof.
  split; [ready_camera_bounds|].
  apply (@rows_partitioned_beyond_height Demo.rng Demo.random_double
           Demo.random_in_unit_disk Demo.ready_camera (Demo.floor_of Demo.grey)
           Demo.stream 5); ready_camera_bounds.
Defined.

Lemma framebuffer_holds_sums_witness :
  initialize Demo.tan Demo.degrees_to_radians Demo.small_camera
    = Some Demo.ready_camera
  /\ exists c' out,
       render Demo.random_double Demo.random_in_unit_disk Demo.tan
         Demo.degrees_to_radians Demo.small_camera 2 (Demo.floor_of Demo.grey)
         Demo.stream = Some (c', out)
       /\ Z.of_nat (List.length (framebuffer out)) = 8%Z.
Proof.
  split; [reflexivity|].
  destruct (@framebuffer_holds_sums Demo.rng Demo.random_double
              Demo.random_in_unit_disk Demo.tan Demo.degrees_to_radians
              Demo.small_camera Demo.ready_camera 2 (Demo.floor_of Demo.grey)
              Demo.stream eq_refl)
    as (c' & out & Hrun & Hlen & _);
    change (image_width (config Demo.small_camera)) with 4%Z in *;
    try ready_camera_bounds.
  exists c', out. split; [exact Hrun|].
  rewrite Hlen, (proj1 ready_camera_size). reflexivity.
Defined.

Lemma render_reproducible_witness :
  config Demo.small_camera
    = config (mkcamera Demo.small_config (geo Demo.ready_camera) 99)
  /\ render Demo.random_double Demo.random_in_unit_disk Demo.tan
       Demo.degrees_to_radians Demo.small_camera 3 (Demo.floor_of Demo.grey)
       Demo.stream
     = render Demo.random_double Demo.random_in_unit_disk Demo.tan
         Demo.degrees_to_radians
         (mkcamera Demo.small_config (geo Demo.ready_camera) 99) 3
         (Demo.floor_of Demo.grey) Demo.stream.
Proof.
  split; [reflexivity|].
  exact (proj1 (@render_reproducible Demo.rng Demo.random_double
                  Demo.random_in_unit_disk Demo.tan Demo.degrees_to_radians
                  Demo.small_camera
                  (mkcamera Demo.small_config (geo Demo.ready_camera) 99) 3
                  (Demo.floor_of Demo.grey) Demo.stream eq_refl)).
Defined.

(* ------------------------------------------------------------------ *)
(** ** Paths: how many bounces, and when the depth no longer matters *)

Lemma sub_one_le (depth : Z) : (0 < depth)%Z -> (CInt.sub depth 1 <= depth - 1)%Z.
Proof.
  intros Hd. unfold CInt.sub, CInt.wrap, CInt.INT_MIN.
  pose proof (Z.mod_le (depth - 1 + 2 ^ 31) (2 ^ 32) ltac:(lia) ltac:(lia)).
  replace (depth - 1 - - 2 ^ 31)%Z with (depth - 1 + 2 ^ 31)%Z by lia.
  lia.
Qed.

Section PathFacts.

Variable rng : Type.
Implicit Types (r : ray) (world : hittable rng) (g : rng).

Lemma ray_color_depth_limit r depth world g :
  (depth <= 0)%Z -> ray_color r depth world g = (end_color PathExhausted, g).
Proof.
  intros Hd. rewrite ray_color_equation_1.
  destruct (Z_le_gt_dec depth 0) as [Hle|Hgt]; [reflexivity | lia].
Qed.

Lemma ray_path_exhausted r depth world g :
  (depth <= 0)%Z -> ray_path r depth world g = ([], PathExhausted, g).
Proof.
  intros Hd. rewrite ray_path_equation_1.
  destruct (Z_le_gt_dec depth 0) as [Hle|Hgt]; [reflexivity | lia].
Qed.

Lemma ray_path_positive r depth world g :
  (0 < depth)%Z ->
  ray_path r depth world g =
  match hit world r visible with
  | Some rec =>
      match scatter (mat rec) r (geometry rec) g with
      | (Some (attenuation, scattered), g1) =>
          let '(atts, e, g2) := ray_path scattered (CInt.sub depth 1) world g1 in
          (attenuation :: atts, e, g2)
      | (None, g1) => ([], PathAbsorbed, g1)
      end
  | None => ([], PathMissed r, g)
  end.
Proof.
  intros Hd. rewrite ray_path_equation_1.
  destruct (Z_le_gt_dec depth 0) as [Hle|Hgt]; [lia|].
  cbn.
  destruct (hit world r visible) as [rec|]; [|reflexivity].
  cbn. destruct (scatter (mat rec) r (geometry rec) g) as [[[att sc]|] g1];
    reflexivity.
Qed.

(** X10. The colour of a ray is the colour at the end of its path (the
    background where the ray leaves the scene, black where it is absorbed
    or the depth runs out) multiplied, innermost first, by the
    attenuations of the bounces on the way; and a path has at most [depth]
    bounces, so at most [depth] materials are asked to scatter. *)
Theorem ray_color_along_path r depth world g :
  ray_color r depth world g
  = (fold_right Vec3.mul (end_color (snd (fst (ray_path r depth world g))))
                (fst (fst (ray_path r depth world g))),
     snd (ray_path r depth world g))
  /\ (List.length (fst (fst (ray_path r depth world g))) <= Z.to_nat depth)%nat.
Proof.
  remember (Z.to_nat depth) as n eqn:Hn.
  assert (Hle : (Z.to_nat depth <= n)%nat) by lia. clear Hn.
  revert r depth g Hle.
  induction n as [|n IH]; intros r depth g Hle.
  - assert (Hd : (depth <= 0)%Z) by lia.
    rewrite ray_path_exhausted, ray_color_depth_limit by assumption.
    split; [reflexivity | cbn; lia].
  - destruct (Z_le_gt_dec depth 0) as [Hd|Hd].
    + rewrite ray_path_exhausted, ray_color_depth_limit by assumption.
      split; [reflexivity | cbn; lia].
    + rewrite ray_path_positive, ray_color_positive by lia.
      destruct (hit world r visible) as [rec|]; [|split; [reflexivity | cbn; lia]].
      destruct (scatter (mat rec) r (geometry rec) g) as [[[att sc]|] g1];
        [|split; [reflexivity | cbn; lia]].
      pose proof (@sub_one_le depth ltac:(lia)) as Hs.
      destruct (IH sc (CInt.sub depth 1) g1 ltac:(lia)) as [Hc Hl].
      rewrite Hc.
      destruct (ray_path sc (CInt.sub depth 1) world g1) as [[atts e] g2].
      cbn [fst snd fold_right List.length] in *.
      split; [reflexivity | lia].
Qed.

(** X11. Once a path ends by a miss or an absorption before the depth
    runs out, a larger depth changes nothing: the path, the colour and the
    random stream afterwards are the same for every greater depth. *)
Theorem ray_color_deep_enough r depth depth' world g :
  (depth <= depth' <= CInt.INT_MAX)%Z ->
  snd (fst (ray_path r depth world g)) <> PathExhausted ->
  ray_path r depth' world g = ray_path r depth world g
  /\ ray_color r depth' world g = ray_color r depth world g.
Proof.
  remember (Z.to_nat depth) as n eqn:Hn.
  assert (Hle : (Z.to_nat depth <= n)%nat) by lia. clear Hn.
  revert r depth depth' g Hle.
  induction n as [|n IH]; intros r depth depth' g Hle Hd Hend.
  - rewrite ray_path_exhausted in Hend by lia. now contradiction Hend.
  - destruct (Z_le_gt_dec depth 0) as [Hz|Hpos].
    + rewrite ray_path_exhausted in Hend by lia. now contradiction Hend.
    + assert (Hs : CInt.sub depth 1 = (depth - 1)%Z).
      { apply wrap_in_range.
        unfold CInt.in_range, CInt.INT_MIN, CInt.INT_MAX in *. lia. }
      assert (Hs' : CInt.sub depth' 1 = (depth' - 1)%Z).
      { apply wrap_in_range.
        unfold CInt.in_range, CInt.INT_MIN, CInt.INT_MAX in *. lia. }
      rewrite (@ray_path_positive r depth) in Hend |- * by lia.
      rewrite (@ray_path_positive r depth'), !ray_color_positive by lia.
      destruct (hit world r visible) as [rec|]; [|split; reflexivity].
      destruct (scatter (mat rec) r (geometry rec) g) as [[[att sc]|] g1];
        [|split; reflexivity].
      rewrite Hs, Hs' in *.
      destruct (IH sc (depth - 1)%Z (depth' - 1)%Z g1 ltac:(lia) ltac:(lia))
        as [Hp Hc].
      { destruct (ray_path sc (depth - 1) world g1) as [[atts e] g2].
        exact Hend. }
      now rewrite Hp, Hc.
Qed.

End PathFacts.

Lemma ray_color_deep_enough_witness :
  (2 <= 9 <= CInt.INT_MAX)%Z
  /\ snd (fst (ray_path Demo.down 2 (Demo.floor_of Demo.grey) 0%Z)) = PathMissed Demo.up
  /\ ray_color Demo.down 9 (Demo.floor_of Demo.grey) 0%Z
     = ray_color Demo.down 2 (Demo.floor_of Demo.grey) 0%Z.
Proof.
  split; [unfold CInt.INT_MAX; lia|]. split; [reflexivity|].
  refine (proj2 (@ray_color_deep_enough Demo.rng Demo.down 2 9
                   (Demo.floor_of Demo.grey) 0%Z _ _)).
  - unfold CInt.INT_MAX. lia.
  - discriminate.
Defined.

(* ------------------------------------------------------------------ *)
(** ** Geometry setup at its edges *)

Local Open Scope float_scope.

(** A quotient by zero or by NaN is an infinity or NaN, which no [int]
    conversion accepts. *)
Lemma to_int_quotient_undefined (x a : double) :
  a = 0 \/ a = -0 \/ a = nan -> CDouble.to_int (x / a) = None.
Proof.
  intros Ha. unfold CDouble.to_int. rewrite div_spec.
  destruct Ha as [Ha | [Ha | Ha]]; rewrite Ha;
    [ change (Prim2SF 0) with (S754_zero false)
    | change (Prim2SF (-0)) with (S754_zero true)
    | change (Prim2SF nan) with S754_nan ];
    unfold SF64div, SFdiv; destruct (Prim2SF x); reflexivity.
Qed.

Local Close Scope float_scope.

Section GeometryEdges.

Variable tan : double -> double.
Variable degrees_to_radians : double -> double.

(** X15. Whenever [initialize] has a result, the image height it derives
    is an [int] of at least 1, and running [initialize] again on the
    result changes nothing: the derived members depend on the public
    members only. *)
Theorem initialize_fixed_point (c c1 : camera) :
  initialize tan degrees_to_radians c = Some c1 ->
  (1 <= image_height (geo c1) <= CInt.INT_MAX)%Z
  /\ initialize tan degrees_to_radians c1 = Some c1.
Proof.
  unfold initialize at 1.
  destruct (CDouble.to_int _) as [h0|] eqn:E; [|discriminate].
  intros [= <-]. split.
  - pose proof E as R. apply to_int_in_range in R. unfold CInt.in_range in R.
    cbn [geo image_height].
    destruct (h0 <? 1)%Z eqn:E1;
      [apply Z.ltb_lt in E1 | apply Z.ltb_ge in E1];
      unfold CInt.INT_MAX in *; lia.
  - unfold initialize. cbn [config sections_remaining]. rewrite E. reflexivity.
Qed.

(** X6. An aspect ratio of zero (of either sign) or NaN leaves the image
    height without a value, whatever the image width: the quotient
    [image_width / aspect_ratio] is then an infinity or NaN and its
    conversion to [int] is undefined. *)
Theorem initialize_degenerate_aspect (c : camera) :
  aspect_ratio (config c) = 0%float
  \/ aspect_ratio (config c) = (-0)%float
  \/ aspect_ratio (config c) = nan ->
  initialize tan degrees_to_radians c = None.
Proof.
  intros Ha. unfold initialize.
  now rewrite (to_int_quotient_undefined _ Ha).
Qed.

End GeometryEdges.

Lemma initialize_fixed_point_witness :
  initialize Demo.tan Demo.degrees_to_radians Demo.small_camera
    = Some Demo.ready_camera
  /\ (1 <= image_height (geo Demo.ready_camera) <= CInt.INT_MAX)%Z
  /\ initialize Demo.tan Demo.degrees_to_radians Demo.ready_camera
     = Some Demo.ready_camera.
Proof.
  split; [reflexivity|].
  exact (@initialize_fixed_point Demo.tan Demo.degrees_to_radians
           Demo.small_camera Demo.ready_camera eq_refl).
Defined.

Lemma initialize_degenerate_aspect_witness :
  aspect_ratio (config DemoEdges.flat_aspect_camera) = 0%float
  /\ initialize Demo.tan Demo.degrees_to_radians DemoEdges.flat_aspect_camera = None.
Proof.
  split; [reflexivity|].
  apply initialize_degenerate_aspect. left. reflexivity.
Defined.

(* ------------------------------------------------------------------ *)
(** ** More about loops and the framebuffer *)

Lemma for_each_app {E S : Type} (body : Z -> S -> list E * S)
    (xs ys : list Z) (s : S) :
  for_each (xs ++ ys) body s
  = (fst (for_each xs body s)
       ++ fst (for_each ys body (snd (for_each xs body s))),
     snd (for_each ys body (snd (for_each xs body s)))).
Proof.
  revert s. induction xs as [|x xs IH]; intros s; cbn [app for_each].
  - cbn [fst snd app]. now destruct (for_each ys body s).
  - destruct (body x s) as [e1 s1]. rewrite IH.
    destruct (for_each xs body s1) as [e2 s2]. cbn [fst snd].
    now rewrite app_assoc.
Qed.

(** A loop whose iterations leave the state alone leaves it alone. *)
Lemma for_each_state_kept {E S : Type} (body : Z -> S -> list E * S)
    (xs : list Z) (s : S) :
  (forall x s0, snd (body x s0) = s0) -> snd (for_each xs body s) = s.
Proof.
  intros Hbody. revert s. induction xs as [|x xs IH]; intros s; [reflexivity|].
  cbn [for_each]. pose proof (Hbody x s) as Hx.
  destruct (body x s) as [e1 s1]. cbn [snd] in Hx. subst s1.
  pose proof (IH s) as Hs.
  destruct (for_each xs body s) as [e2 s2]. exact Hs.
Qed.

Lemma map_flat_map_comm {A B C : Type} (f : B -> C) (g : A -> list B)
    (l : list A) :
  map f (flat_map g l) = flat_map (fun a => map f (g a)) l.
Proof.
  induction l as [|a l IH]; simpl; [reflexivity|].
  now rewrite map_app, IH.
Qed.

(** Reading a vector at every index, in order, gives the vector back. *)
Lemma load_every_index (pre fb : list color) :
  map (load (pre ++ fb))
      (CInt.count_from (Z.of_nat (List.length pre)) (List.length fb))
  = fb.
Proof.
  revert pre. induction fb as [|x fb IH]; intros pre; [reflexivity|].
  cbn [List.length CInt.count_from map]. f_equal.
  - unfold load. rewrite Nat2Z.id, nth_middle. reflexivity.
  - specialize (IH (pre ++ [x])).
    rewrite <- app_assoc, length_app in IH. cbn [List.length app] in IH.
    rewrite <- IH at 3. do 2 f_equal. lia.
Qed.

Lemma all_equal_repeat {A : Type} (a : A) (l : list A) :
  (forall x, In x l -> x = a) -> l = repeat a (List.length l).
Proof.
  induction l as [|x l IH]; intros Hall; [reflexivity|].
  cbn [List.length repeat]. f_equal.
  - apply Hall. now left.
  - apply IH. intros y Hy. apply Hall. now right.
Qed.

(** Counting a counter down once per iteration. *)
Lemma countdown (n : nat) (lo m : Z) :
  (Z.of_nat n <= m <= CInt.INT_MAX)%Z ->
  fold_left (fun acc (_ : Z) => CInt.sub acc 1) (CInt.count_from lo n) m
  = (m - Z.of_nat n)%Z.
Proof.
  revert lo m. induction n as [|n IH]; intros lo m Hm.
  - cbn. lia.
  - cbn [CInt.count_from fold_left].
    assert (Hs : CInt.sub m 1 = (m - 1)%Z).
    { apply wrap_in_range.
      unfold CInt.in_range, CInt.INT_MIN, CInt.INT_MAX in *. lia. }
    rewrite Hs, IH by lia. lia.
Qed.

(* ------------------------------------------------------------------ *)
(** ** The scheduler at its edges *)

Section SchedulerEdges.

Variable rng : Type.
Variable random_double : rng -> double * rng.
Variable random_in_unit_disk : rng -> vec3 * rng.

Local Abbreviation pixel_color' := (pixel_color random_double random_in_unit_disk).
Local Abbreviation sample_colors' := (sample_colors random_double random_in_unit_disk).
Local Abbreviation render_section' := (render_section random_double random_in_unit_disk).
Local Abbreviation worker_writes' := (worker_writes random_double random_in_unit_disk).

(** X12. Rendering the rows [first, last) in one section is rendering
    [first, mid) and then [mid, last) with the random stream carried over:
    the writes are the same, in the same order, and so is the stream
    afterwards. *)
Theorem render_section_split (c : camera) (world : hittable rng)
    (first mid last : Z) (g : rng) :
  (first <= mid <= last)%Z ->
  let upper := render_section' c world first mid g in
  let lower := render_section' c world mid last (snd upper) in
  render_section' c world first last g
  = (fst upper ++ fst lower, snd lower).
Proof.
  intros Hmid. cbv zeta. unfold render_section.
  rewrite (@range_split first mid last Hmid). apply for_each_app.
Qed.

(** Without samples the sample loop returns black and draws nothing. *)
Lemma pixel_color_no_samples (c : camera) (world : hittable rng) (i j : Z)
    (g : rng) :
  (samples_per_pixel (config c) <= 0)%Z ->
  pixel_color' c world i j g = (mkvec3 0 0 0, g)%float.
Proof.
  intros Hs. unfold pixel_color, for_loop.
  now rewrite range_empty by lia.
Qed.

Lemma sum_of_blacks (n : nat) :
  sum_colors (repeat (mkvec3 0 0 0)%float n) = (mkvec3 0 0 0)%float.
Proof.
  unfold sum_colors. induction n as [|n IH]; [reflexivity|].
  cbn [repeat fold_left].
  change (Vec3.add (mkvec3 0 0 0) (mkvec3 0 0 0))%float with (mkvec3 0 0 0)%float.
  exact IH.
Qed.

(** At depth zero or below every sample is black, and so is their sum. *)
Lemma pixel_color_no_depth (c : camera) (world : hittable rng) (i j : Z)
    (g : rng) :
  (max_depth (config c) <= 0)%Z ->
  fst (pixel_color' c world i j g) = (mkvec3 0 0 0)%float.
Proof.
  intros Hd. rewrite pixel_color_sum.
  assert (Hall : forall n g0,
             sample_colors' c world i j n g0 = repeat (mkvec3 0 0 0)%float n).
  { induction n as [|n IH]; intros g0; [reflexivity|].
    cbn [sample_colors repeat].
    destruct (get_ray random_double random_in_unit_disk c i j g0) as [r g1].
    rewrite ray_color_depth_limit by assumption. cbn [end_color].
    now rewrite IH. }
  rewrite Hall. apply sum_of_blacks.
Qed.

Section WorkersEdges.

Variable c : camera.
Variable world : hittable rng.
Variable stream : Z -> rng.
Variable W : Z.

Let H := image_height (geo c).
Let width := image_width (config c).

Hypothesis W_int : (1 <= W <= CInt.INT_MAX)%Z.
Hypothesis H_int : (0 <= H <= CInt.INT_MAX)%Z.
Hypothesis width_nonneg : (0 <= width)%Z.
Hypothesis fits : (width * H <= CInt.INT_MAX)%Z.

Lemma all_writes_count :
  List.length (concat (worker_writes' c world stream W (H / W)))
  = Z.to_nat (width * H).
Proof.
  rewrite <- (length_map fst).
  pose proof (@all_worker_indices rng random_double random_in_unit_disk c world
                stream W W_int H_int width_nonneg fits) as Hidx.
  fold H width in Hidx. rewrite Hidx. apply count_from_length.
Qed.

(** When every pixel gets the same colour, the framebuffer is that colour
    throughout. *)
Lemma written_values_constant (v : color) :
  (forall i j g, fst (pixel_color' c world i j g) = v) ->
  map snd (concat (worker_writes' c world stream W (H / W)))
  = repeat v (Z.to_nat (width * H)).
Proof.
  intros Hv. rewrite <- all_writes_count, <- (length_map snd).
  apply all_equal_repeat. intros x Hx.
  apply in_map_iff in Hx as ([idx y] & <- & Hin). cbn [snd].
  apply in_concat in Hin as (l & Hl & Hin).
  unfold worker_writes in Hl. apply in_map_iff in Hl as (t & <- & _).
  apply render_section_write in Hin as (i & j & g0 & _ & _ & _ & ->).
  apply Hv.
Qed.

End WorkersEdges.

(** The emission loops read the framebuffer front to back. *)
Lemma emit_value (c : camera) (fb : list color) :
  (0 <= image_width (config c))%Z -> (0 <= image_height (geo c))%Z ->
  (image_width (config c) * image_height (geo c) <= CInt.INT_MAX)%Z ->
  List.length fb = Z.to_nat (image_width (config c) * image_height (geo c)) ->
  emit c fb = map (Vec3.scale (pixel_samples_scale (geo c))) fb.
Proof.
  intros Hw Hh Hfit Hlen. unfold emit.
  rewrite flat_map_ext_in
    with (g := fun j =>
                 map (fun k => Vec3.scale (pixel_samples_scale (geo c)) (load fb k))
                     (map (fun i => (j * image_width (config c) + i)%Z)
                          (CInt.range 0 (image_width (config c))))).
  - rewrite <- map_flat_map_comm. unfold CInt.range at 2.
    rewrite grid_indices by assumption.
    rewrite Z.sub_0_r, <- Z2Nat.inj_mul, <- Hlen by lia.
    rewrite <- (map_map (load fb) (Vec3.scale (pixel_samples_scale (geo c)))).
    f_equal. apply (load_every_index [] fb).
  - intros j Hj. apply range_In in Hj. rewrite map_map.
    apply map_ext_in. intros i Hi. apply range_In in Hi.
    now rewrite (@pixel_index_value c (image_height (geo c))) by lia.
Qed.

Section RenderEdges.

Variable tan : double -> double.
Variable degrees_to_radians : double -> double.

Local Abbreviation render' :=
  (render random_double random_in_unit_disk tan degrees_to_radians).

(** The pieces of a defined call of [render], put together. *)
Lemma render_pieces (c c1 : camera) (hc : Z) (world : hittable rng)
    (stream : Z -> rng) :
  initialize tan degrees_to_radians c = Some c1 ->
  (1 <= hc <= CInt.INT_MAX)%Z ->
  (0 <= image_width (config c1))%Z ->
  (image_width (config c1) * image_height (geo c1) <= CInt.INT_MAX)%Z ->
  let ws := concat (worker_writes' (mkcamera (config c1) (geo c1) hc) world
                      stream hc (image_height (geo c1) / hc)) in
  render' c hc world stream
  = Some (mkcamera (config c) (geo c1) 0,
          mkoutput (image_width (config c)) (image_height (geo c1))
                   (map snd ws)
                   (map (Vec3.scale (pixel_samples_scale (geo c1))) (map snd ws)))
  /\ map fst ws
     = CInt.count_from 0
         (Z.to_nat (image_width (config c1) * image_height (geo c1)))
  /\ List.length (fresh_framebuffer c1)
     = Z.to_nat (image_width (config c1) * image_height (geo c1)).
Proof.
  intros Hinit Hhc Hw Hfit ws.
  destruct (@initialize_derived tan degrees_to_radians c c1 Hinit)
    as (Hcfg & Hh & _).
  assert (HH : (0 <= image_height (geo c1) <= CInt.INT_MAX)%Z) by lia.
  pose proof (@all_worker_indices rng random_double random_in_unit_disk
                (mkcamera (config c1) (geo c1) hc) world stream hc
                Hhc HH Hw Hfit) as Hidx.
  pose proof (@framebuffer_value rng random_double random_in_unit_disk
                (mkcamera (config c1) (geo c1) hc) world stream hc
                Hhc HH Hw Hfit) as Hfb.
  cbn [config geo] in Hidx, Hfb. fold ws in Hidx, Hfb.
  change (fresh_framebuffer (mkcamera (config c1) (geo c1) hc))
    with (fresh_framebuffer c1) in Hfb.
  split; [|split; [exact Hidx|]].
  - rewrite (@render_value rng random_double random_in_unit_disk tan
               degrees_to_radians c c1 hc world stream Hinit Hhc).
    fold ws. rewrite Hfb.
    rewrite (@emit_value (mkcamera (config c1) (geo c1) hc) (map snd ws));
      cbn [config geo]; try lia.
    + unfold for_loop, CInt.range.
      rewrite countdown by lia.
      rewrite Z.sub_0_r, Z2Nat.id, Z.sub_diag, Hcfg by lia. reflexivity.
    + rewrite length_map, <- (length_map fst), Hidx. apply count_from_length.
  - unfold fresh_framebuffer, CInt.mul. rewrite repeat_length.
    rewrite wrap_in_range; [reflexivity|].
    unfold CInt.in_range, CInt.INT_MIN, CInt.INT_MAX in *. nia.
Qed.

(** X2. No access of [render] leaves the framebuffer: every index a
    worker writes, and every index the emission loops read, lies inside
    the vector that [render] allocated. *)
Theorem accesses_in_bounds (c c1 : camera) (hc : Z) (world : hittable rng)
    (stream : Z -> rng) :
  initialize tan degrees_to_radians c = Some c1 ->
  (1 <= hc <= CInt.INT_MAX)%Z ->
  (0 <= image_width (config c1))%Z ->
  (image_width (config c1) * image_height (geo c1) <= CInt.INT_MAX)%Z ->
  (forall idx v,
      In (idx, v)
         (concat (worker_writes' (mkcamera (config c1) (geo c1) hc) world
                    stream hc (image_height (geo c1) / hc))) ->
      (0 <= idx < Z.of_nat (List.length (fresh_framebuffer c1)))%Z)
  /\ (forall i j,
        (0 <= i < image_width (config c1))%Z ->
        (0 <= j < image_height (geo c1))%Z ->
        (0 <= pixel_index (mkcamera (config c1) (geo c1) hc) i j
         < Z.of_nat (List.length (fresh_framebuffer c1)))%Z).
Proof.
  intros Hinit Hhc Hw Hfit.
  destruct (@render_pieces c c1 hc world stream Hinit Hhc Hw Hfit)
    as (_ & Hidx & Hlen).
  cbv zeta in Hidx. rewrite Hlen. split.
  - intros idx v Hin.
    apply (in_map fst) in Hin. rewrite Hidx in Hin.
    apply count_from_In in Hin. exact Hin.
  - intros i j Hi Hj.
    rewrite (@pixel_index_value (mkcamera (config c1) (geo c1) hc)
               (image_height (geo c1)) i j Hi Hj Hfit).
    cbn [config]. rewrite Z2Nat.id by nia. nia.
Qed.

(** X3. What [render] hands to [write_color] is the framebuffer, entry
    by entry from the first to the last, each entry scaled by
    [pixel_samples_scale]: [image_width * image_height] colours, none
    skipped and none repeated. *)
Theorem emission_scales_framebuffer (c c1 : camera) (hc : Z)
    (world : hittable rng) (stream : Z -> rng) :
  initialize tan degrees_to_radians c = Some c1 ->
  (1 <= hc <= CInt.INT_MAX)%Z ->
  (0 <= image_width (config c1))%Z ->
  (image_width (config c1) * image_height (geo c1) <= CInt.INT_MAX)%Z ->
  exists c' out,
    render' c hc world stream = Some (c', out)
    /\ emitted out
       = map (Vec3.scale (pixel_samples_scale (geo c1))) (framebuffer out)
    /\ List.length (emitted out)
       = Z.to_nat (image_width (config c1) * image_height (geo c1)).
Proof.
  intros Hinit Hhc Hw Hfit.
  destruct (@render_pieces c c1 hc world stream Hinit Hhc Hw Hfit)
    as (Hrun & Hidx & _).
  cbv zeta in Hrun, Hidx.
  eexists. eexists. split; [exact Hrun|]. cbn [emitted framebuffer].
  split; [reflexivity|].
  rewrite !length_map, <- (length_map fst), Hidx. apply count_from_length.
Qed.

(** X4. A defined call of [render] leaves the camera with its public
    members as they were, the geometry that [initialize] derived and the
    progress counter at zero, every worker having counted down once; the
    header values are the image width and the derived height. *)
Theorem render_final_state (c c1 : camera) (hc : Z) (world : hittable rng)
    (stream : Z -> rng) :
  initialize tan degrees_to_radians c = Some c1 ->
  (1 <= hc <= CInt.INT_MAX)%Z ->
  (0 <= image_width (config c1))%Z ->
  (image_width (config c1) * image_height (geo c1) <= CInt.INT_MAX)%Z ->
  exists out,
    render' c hc world stream = Some (mkcamera (config c) (geo c1) 0, out)
    /\ out_width out = image_width (config c)
    /\ out_height out = image_height (geo c1).
Proof.
  intros Hinit Hhc Hw Hfit.
  destruct (@render_pieces c c1 hc world stream Hinit Hhc Hw Hfit)
    as (Hrun & _).
  cbv zeta in Hrun. eexists. split; [exact Hrun|]. split; reflexivity.
Qed.


(** X7. With [max_depth <= 0] every ray is cut off before it meets the
    scene: whatever the scene and the sample count, every framebuffer
    entry is black. *)
Theorem render_black_without_depth (c c1 : camera) (hc : Z)
    (world : hittable rng) (stream : Z -> rng) :
  initialize tan degrees_to_radians c = Some c1 ->
  (1 <= hc <= CInt.INT_MAX)%Z ->
  (0 <= image_width (config c1))%Z ->
  (image_width (config c1) * image_height (geo c1) <= CInt.INT_MAX)%Z ->
  (max_depth (config c) <= 0)%Z ->
  exists c' out,
    render' c hc world stream = Some (c', out)
    /\ framebuffer out
       = repeat (mkvec3 0 0 0)%float
           (Z.to_nat (image_width (config c1) * image_height (geo c1))).
Proof.
  intros Hinit Hhc Hw Hfit Hdepth.
  destruct (@initialize_derived tan degrees_to_radians c c1 Hinit)
    as (Hcfg & Hh & _).
  destruct (@render_pieces c c1 hc world stream Hinit Hhc Hw Hfit)
    as (Hrun & _).
  cbv zeta in Hrun.
  eexists. eexists. split; [exact Hrun|]. cbn [framebuffer].
  apply (@written_values_constant (mkcamera (config c1) (geo c1) hc) world
           stream hc Hhc ltac:(cbn [geo]; lia) Hw Hfit).
  intros i j g. apply pixel_color_no_depth. cbn [config]. now rewrite Hcfg.
Qed.

(** X8. With [samples_per_pixel <= 0] no ray is sampled: a section draws
    no random number, every framebuffer entry is black, and with
    [samples_per_pixel = 0] the scale [1.0 / 0] is infinite, so that every
    colour handed to [write_color] is NaN in all three components. *)
Theorem render_without_samples (c c1 : camera) (hc : Z)
    (world : hittable rng) (stream : Z -> rng) :
  initialize tan degrees_to_radians c = Some c1 ->
  (1 <= hc <= CInt.INT_MAX)%Z ->
  (0 <= image_width (config c1))%Z ->
  (image_width (config c1) * image_height (geo c1) <= CInt.INT_MAX)%Z ->
  (samples_per_pixel (config c) <= 0)%Z ->
  exists c' out,
    render' c hc world stream = Some (c', out)
    /\ framebuffer out
       = repeat (mkvec3 0 0 0)%float
           (Z.to_nat (image_width (config c1) * image_height (geo c1)))
    /\ (forall first last g,
          snd (render_section' c1 world first last g) = g)
    /\ (samples_per_pixel (config c) = 0%Z ->
        emitted out
        = repeat (mkvec3 nan nan nan)
            (Z.to_nat (image_width (config c1) * image_height (geo c1)))).
Proof.
  intros Hinit Hhc Hw Hfit Hspp.
  destruct (@initialize_derived tan degrees_to_radians c c1 Hinit)
    as (Hcfg & Hh & Hscale).
  destruct (@render_pieces c c1 hc world stream Hinit Hhc Hw Hfit)
    as (Hrun & _).
  cbv zeta in Hrun.
  assert (Hfb : map snd
            (concat (worker_writes' (mkcamera (config c1) (geo c1) hc) world
                       stream hc (image_height (geo c1) / hc)))
          = repeat (mkvec3 0 0 0)%float
              (Z.to_nat (image_width (config c1) * image_height (geo c1)))).
  { apply (@written_values_constant (mkcamera (config c1) (geo c1) hc) world
             stream hc Hhc ltac:(cbn [geo]; lia) Hw Hfit).
    intros i j g. rewrite pixel_color_no_samples; [reflexivity|].
    cbn [config]. now rewrite Hcfg. }
  eexists. eexists. split; [exact Hrun|]. cbn [framebuffer emitted].
  split; [exact Hfb|]. split.
  - intros first last g. unfold render_section.
    apply for_each_state_kept. intros j g0.
    apply for_each_state_kept. intros i g1.
    rewrite pixel_color_no_samples by (now rewrite Hcfg). reflexivity.
  - intros Hzero. rewrite Hfb, map_repeat, Hscale, Hzero. reflexivity.
Qed.

End RenderEdges.

End SchedulerEdges.

(* ------------------------------------------------------------------ *)
(** ** How many rows a worker gets *)

(** X14. For every worker count from 1 upward, each worker but the last
    gets [image_height / thread_count] rows and the last gets these and
    the remainder [image_height mod thread_count] on top, fewer than
    [thread_count] extra rows. *)
Theorem rows_per_worker (H W : Z) :
  (1 <= W <= CInt.INT_MAX)%Z -> (0 <= H <= CInt.INT_MAX)%Z ->
  exists ranges,
    row_ranges H W = Some ranges
    /\ (forall t, (0 <= t < W - 1)%Z ->
          (snd (range_of ranges t) - fst (range_of ranges t) = H / W)%Z)
    /\ (snd (range_of ranges (W - 1)) - fst (range_of ranges (W - 1))
        = H / W + H mod W)%Z
    /\ (0 <= H mod W < W)%Z.
Proof.
  intros HW HH.
  eexists. split; [apply (row_ranges_value HW HH)|].
  assert (Hnth : forall t, (0 <= t < W)%Z ->
            range_of (map (fun t => (boundary H W t, boundary H W (t + 1)))
                          (CInt.range 0 W)) t
            = (boundary H W t, boundary H W (t + 1))).
  { intros t Ht. unfold range_of.
    rewrite nth_map_in_range with (d' := 0%Z) by (rewrite range_length; lia).
    unfold CInt.range. rewrite count_from_nth by lia.
    now rewrite Z.add_0_l, Z2Nat.id by lia. }
  pose proof (Z.div_mod H W ltac:(lia)) as D.
  pose proof (Z.mod_pos_bound H W ltac:(lia)) as B.
  split; [|split; [|exact B]].
  - intros t Ht. rewrite Hnth by lia. cbn [fst snd]. unfold boundary.
    destruct (t <? W)%Z eqn:E1; [|apply Z.ltb_ge in E1; lia].
    destruct (t + 1 <? W)%Z eqn:E2; [|apply Z.ltb_ge in E2; lia].
    lia.
  - rewrite Hnth by lia. cbn [fst snd]. unfold boundary.
    destruct (W - 1 <? W)%Z eqn:E1; [|apply Z.ltb_ge in E1; lia].
    destruct (W - 1 + 1 <? W)%Z eqn:E2; [apply Z.ltb_lt in E2; lia|].
    lia.
Qed.

Lemma rows_per_worker_witness :
  exists ranges,
    row_ranges 10 4 = Some ranges
    /\ (forall t, (0 <= t < 4 - 1)%Z ->
          (snd (range_of ranges t) - fst (range_of ranges t) = 10 / 4)%Z)
    /\ (snd (range_of ranges (4 - 1)) - fst (range_of ranges (4 - 1))
        = 10 / 4 + 10 mod 4)%Z
    /\ (0 <= 10 mod 4 < 4)%Z.
Proof.
  apply (@rows_per_worker 10 4); unfold CInt.INT_MAX; lia.
Defined.

(* ------------------------------------------------------------------ *)
(** ** The scheduler at its edges, on the small cameras *)

Lemma edge_camera_sizes :
  image_height (geo (DemoEdges.initialized DemoEdges.flat_camera)) = 2%Z
  /\ image_width (config (DemoEdges.initialized DemoEdges.flat_camera)) = 4%Z
  /\ image_height (geo (DemoEdges.initialized DemoEdges.unsampled_camera)) = 2%Z
  /\ image_width (config (DemoEdges.initialized DemoEdges.unsampled_camera)) = 4%Z.
Proof. repeat split; vm_compute; reflexivity. Qed.

Ltac edge_camera_bounds :=
  pose proof ready_camera_size; pose proof edge_camera_sizes;
  unfold CInt.INT_MAX; nia.

Lemma render_any_interleaving_witness :
  exists c' out,
    render Demo.random_double Demo.random_in_unit_disk Demo.tan
      Demo.degrees_to_radians Demo.small_camera 2 (Demo.floor_of Demo.grey)
      Demo.stream = Some (c', out)
    /\ apply_writes (fresh_framebuffer Demo.ready_camera)
         (concat
            (worker_writes Demo.random_double Demo.random_in_unit_disk
               (mkcamera (config Demo.ready_camera) (geo Demo.ready_camera) 2)
               (Demo.floor_of Demo.grey) Demo.stream 2
               (image_height (geo Demo.ready_camera) / 2)))
       = framebuffer out.
Proof.
  apply (@render_any_interleaving Demo.rng Demo.random_double
           Demo.random_in_unit_disk Demo.tan Demo.degrees_to_radians
           Demo.small_camera Demo.ready_camera 2 (Demo.floor_of Demo.grey)
           Demo.stream _ eq_refl);
    [edge_camera_bounds | edge_camera_bounds | edge_camera_bounds
    | apply interleaving_sequential].
Defined.

Lemma accesses_in_bounds_witness :
  initialize Demo.tan Demo.degrees_to_radians Demo.small_camera
    = Some Demo.ready_camera
  /\ forall i j,
       (0 <= i < image_width (config Demo.ready_camera))%Z ->
       (0 <= j < image_height (geo Demo.ready_camera))%Z ->
       (0 <= pixel_index
               (mkcamera (config Demo.ready_camera) (geo Demo.ready_camera) 2) i j
        < Z.of_nat (List.length (fresh_framebuffer Demo.ready_camera)))%Z.
Proof.
  split; [reflexivity|].
  refine (proj2 (@accesses_in_bounds Demo.rng Demo.random_double
                   Demo.random_in_unit_disk Demo.tan Demo.degrees_to_radians
                   Demo.small_camera Demo.ready_camera 2
                   (Demo.floor_of Demo.grey) Demo.stream eq_refl _ _ _));
    edge_camera_bounds.
Defined.

Lemma emission_scales_framebuffer_witness :
  exists c' out,
    render Demo.random_double Demo.random_in_unit_disk Demo.tan
      Demo.degrees_to_radians Demo.small_camera 2 (Demo.floor_of Demo.grey)
      Demo.stream = Some (c', out)
    /\ emitted out
       = map (Vec3.scale (pixel_samples_scale (geo Demo.ready_camera)))
             (framebuffer out)
    /\ List.length (emitted out)
       = Z.to_nat (image_width (config Demo.ready_camera)
                   * image_height (geo Demo.ready_camera)).
Proof.
  apply (@emission_scales_framebuffer Demo.rng Demo.random_double
           Demo.random_in_unit_disk Demo.tan Demo.degrees_to_radians
           Demo.small_camera Demo.ready_camera 2 (Demo.floor_of Demo.grey)
           Demo.stream eq_refl); edge_camera_bounds.
Defined.

Lemma render_final_state_witness :
  exists out,
    render Demo.random_double Demo.random_in_unit_disk Demo.tan
      Demo.degrees_to_radians Demo.small_camera 3 (Demo.floor_of Demo.grey)
      Demo.stream
    = Some (mkcamera (config Demo.small_camera) (geo Demo.ready_camera) 0, out)
    /\ out_width out = image_width (config Demo.small_camera)
    /\ out_height out = image_height (geo Demo.ready_camera).
Proof.
  apply (@render_final_state Demo.rng Demo.random_double
           Demo.random_in_unit_disk Demo.tan Demo.degrees_to_radians
           Demo.small_camera Demo.ready_camera 3 (Demo.floor_of Demo.grey)
           Demo.stream eq_refl); edge_camera_bounds.
Defined.

Lemma render_black_without_depth_witness :
  (max_depth (config DemoEdges.flat_camera) <= 0)%Z
  /\ exists c' out,
       render Demo.random_double Demo.random_in_unit_disk Demo.tan
         Demo.degrees_to_radians DemoEdges.flat_camera 2
         (Demo.floor_of Demo.grey) Demo.stream = Some (c', out)
       /\ framebuffer out
          = repeat (mkvec3 0 0 0)%float
              (Z.to_nat
                 (image_width (config (DemoEdges.initialized DemoEdges.flat_camera))
                  * image_height (geo (DemoEdges.initialized DemoEdges.flat_camera)))).
Proof.
  split; [cbn; lia|].
  apply (@render_black_without_depth Demo.rng Demo.random_double
           Demo.random_in_unit_disk Demo.tan Demo.degrees_to_radians
           DemoEdges.flat_camera (DemoEdges.initialized DemoEdges.flat_camera) 2
           (Demo.floor_of Demo.grey) Demo.stream eq_refl);
    try edge_camera_bounds.
  cbn. lia.
Defined.

Lemma render_without_samples_witness :
  samples_per_pixel (config DemoEdges.unsampled_camera) = 0%Z
  /\ exists c' out,
       render Demo.random_double Demo.random_in_unit_disk Demo.tan
         Demo.degrees_to_radians DemoEdges.unsampled_camera 2
         (Demo.floor_of Demo.grey) Demo.stream = Some (c', out)
       /\ emitted out = repeat (mkvec3 nan nan nan) 8.
Proof.
  split; [reflexivity|].
  destruct (@render_without_samples Demo.rng Demo.random_double
              Demo.random_in_unit_disk Demo.tan Demo.degrees_to_radians
              DemoEdges.unsampled_camera
              (DemoEdges.initialized DemoEdges.unsampled_camera) 2
              (Demo.floor_of Demo.grey) Demo.stream eq_refl)
    as (c' & out & Hrun & _ & _ & Hnan);
    try edge_camera_bounds; [cbn; lia|].
  exists c', out. split; [exact Hrun|].
  rewrite (Hnan eq_refl).
  rewrite (proj1 (proj2 (proj2 edge_camera_sizes))),
          (proj2 (proj2 (proj2 edge_camera_sizes))).
  reflexivity.
Defined.

Lemma render_section_split_witness :
  (0 <= 1 <= 2)%Z
  /\ render_section Demo.random_double Demo.random_in_unit_disk
       Demo.ready_camera (Demo.floor_of Demo.grey) 0 2 5%Z
     = (fst (render_section Demo.random_double Demo.random_in_unit_disk
               Demo.ready_camera (Demo.floor_of Demo.grey) 0 1 5%Z)
        ++ fst (render_section Demo.random_double Demo.random_in_unit_disk
                  Demo.ready_camera (Demo.floor_of Demo.grey) 1 2
                  (snd (render_section Demo.random_double Demo.random_in_unit_disk
                          Demo.ready_camera (Demo.floor_of Demo.grey) 0 1 5%Z))),
        snd (render_section Demo.random_double Demo.random_in_unit_disk
               Demo.ready_camera (Demo.floor_of Demo.grey) 1 2
               (snd (render_section Demo.random_double Demo.random_in_unit_disk
                       Demo.ready_camera (Demo.floor_of Demo.grey) 0 1 5%Z)))).
Proof.
  split; [lia|].
  apply (@render_section_split Demo.rng Demo.random_double
           Demo.random_in_unit_disk Demo.ready_camera (Demo.floor_of Demo.grey)
           0 1 2 5%Z).
  lia.
Defined.

(* ------------------------------------------------------------------ *)
(** ** The lens, and an image without columns *)

Section LensAndWidth.

Variable rng : Type.
Variable random_double : rng -> double * rng.
Variable random_in_unit_disk : rng -> vec3 * rng.


Variable tan : double -> double.
Variable degrees_to_radians : double -> double.

(** X9. An image width of zero is no error: when [initialize] has a
    result and at least one worker runs, [render] returns, no worker
    writes anything, the framebuffer is empty and nothing is handed to
    [write_color]. *)
Theorem render_without_columns (c c1 : camera) (hc : Z) (world : hittable rng)
    (stream : Z -> rng) :
  initialize tan degrees_to_radians c = Some c1 ->
  (1 <= hc <= CInt.INT_MAX)%Z ->
  image_width (config c) = 0%Z ->
  exists c' out,
    render random_double random_in_unit_disk tan degrees_to_radians
           c hc world stream = Some (c', out)
    /\ framebuffer out = [] /\ emitted out = []
    /\ concat (worker_writes random_double random_in_unit_disk
                 (mkcamera (config c1) (geo c1) hc) world stream hc
                 (image_height (geo c1) / hc)) = [].
Proof.
  intros Hinit Hhc Hzero.
  destruct (@initialize_derived tan degrees_to_radians c c1 Hinit)
    as (Hcfg & Hh & _).
  assert (Hw : image_width (config c1) = 0%Z) by (now rewrite Hcfg).
  destruct (@render_pieces rng random_double random_in_unit_disk tan
              degrees_to_radians c c1 hc world stream Hinit Hhc
              ltac:(lia) ltac:(unfold CInt.INT_MAX; nia))
    as (Hrun & Hidx & _).
  cbv zeta in Hrun, Hidx.
  rewrite Hw, Z.mul_0_l in Hidx. cbn [Z.to_nat CInt.count_from] in Hidx.
  apply map_eq_nil in Hidx.
  rewrite Hidx in Hrun |- *. cbn [map] in Hrun.
  eexists. eexists. split; [exact Hrun|]. repeat split.
Qed.

End LensAndWidth.


Lemma render_without_columns_witness :
  image_width (config DemoEdges.empty_camera) = 0%Z
  /\ exists c' out,
       render Demo.random_double Demo.random_in_unit_disk Demo.tan
         Demo.degrees_to_radians DemoEdges.empty_camera 2
         (Demo.floor_of Demo.grey) Demo.stream = Some (c', out)
       /\ framebuffer out = [] /\ emitted out = [].
Proof.
  split; [reflexivity|].
  destruct (@render_without_columns Demo.rng Demo.random_double
              Demo.random_in_unit_disk Demo.tan Demo.degrees_to_radians
              DemoEdges.empty_camera
              (DemoEdges.initialized DemoEdges.empty_camera) 2
              (Demo.floor_of Demo.grey) Demo.stream eq_refl)
    as (c' & out & Hrun & Hfb & Hem & _);
    [unfold CInt.INT_MAX; lia | reflexivity |].
  exists c', out. repeat split; assumption.
Defined.
